(** * Byte pair encoding of the subword-embedding notebook

    A shallow embedding of the byte pair encoding (BPE) code of
    [chapter_natural-language-processing-pretraining/subword-embedding.ipynb]:
    the initial vocabulary [symbols], the construction of [token_freqs],
    [get_max_freq_pair], [merge_symbols], the training loop and
    [segment_BPE], followed by the properties of these functions.

    Conventions of the embedding.
    - A Python [str] is a [string]; a character is a code point below 256.
    - A Python [int] is a [Z].
    - A Python [dict] is an association list in insertion order without
      repeated keys; [dict_set] is [d[k] = v] and keeps the position of a
      key that is already present.
    - A Python exception is [None] in the pure functions and [Raise] in
      the store-passing ones. *)

From Stdlib Require Import ZArith Ascii String Lia.
From stdpp Require Import base list gmap strings.
From Equations.Prop Require Import Equations Logic.

Local Open Scope Z_scope.

#[local] Arguments String.append !_ _ / : simpl nomatch.

(** ** Python strings *)

(** [str.isspace] on one code point below 256: the characters 9 to 13,
    28 to 32, 133 and 160. *)
Definition is_space (c : ascii) : bool :=
  let n := N_of_ascii c in
  ((9 <=? n) && (n <=? 13) || (28 <=? n) && (n <=? 32)
   || (n =? 133) || (n =? 160))%N.

(** [sep.join(l)]. *)
Fixpoint join (sep : string) (l : list string) : string :=
  match l with
  | [] => ""
  | [x] => x
  | x :: l' => x +:+ sep +:+ join sep l'
  end.

(** [list(s)]: the characters of [s], each as a string of length one. *)
Fixpoint chars (s : string) : list string :=
  match s with
  | EmptyString => []
  | String c s' => String c "" :: chars s'
  end.

(** [s.split()]: the maximal runs of characters that are not white space.
    [cur] is the run being read. *)
Fixpoint split_go (cur : string) (s : string) : list string :=
  match s with
  | EmptyString => if decide (cur = "") then [] else [cur]
  | String c s' =>
      if is_space c
      then (if decide (cur = "") then split_go "" s'
            else cur :: split_go "" s')
      else split_go (cur +:+ String c "") s'
  end.

Definition split (s : string) : list string := split_go "" s.

(** [s.replace(old, new)] for a non-empty [old]: the occurrences of [old]
    are found from left to right and do not overlap. [skip] counts the
    characters of a matched occurrence that are still to be dropped. *)
Fixpoint replace_go (old new : string) (skip : nat) (s : string) : string :=
  match s with
  | EmptyString => ""
  | String c s' =>
      match skip with
      | S k => replace_go old new k s'
      | O =>
          if String.prefix old s
          then new +:+ replace_go old new (String.length old - 1) s'
          else String c (replace_go old new 0 s')
      end
  end.

(** With an empty [old] Python puts [new] before every character and at
    the end. *)
Fixpoint interleave (new : string) (s : string) : string :=
  match s with
  | EmptyString => new
  | String c s' => new +:+ String c (interleave new s')
  end.

Definition replace (old new s : string) : string :=
  match old with
  | EmptyString => interleave new s
  | String _ _ => replace_go old new 0 s
  end.

(** [s[i:j]] for indices [0 <= i] and [0 <= j]; Python clamps them to the
    length of [s]. *)
Definition slice (s : string) (i j : nat) : string :=
  String.substring i (j - i) s.

(** The string without its blanks (the delimiter of the keys of
    [token_freqs]). *)
Fixpoint squeeze (s : string) : string :=
  match s with
  | EmptyString => ""
  | String c s' =>
      if Ascii.eqb c " " then squeeze s' else String c (squeeze s')
  end.

(** ** Python dictionaries *)

Section Dict.
Context {K : Type} `{EqDecision K}.

Definition dict : Type := list (K * Z).

Definition keys (d : dict) : list K := d.*1.
Definition values (d : dict) : list Z := d.*2.

(** [d.get(k)] *)
Fixpoint dict_get (k : K) (d : dict) : option Z :=
  match d with
  | [] => None
  | (k', v) :: d' => if decide (k = k') then Some v else dict_get k d'
  end.

(** [d[k] = v] *)
Fixpoint dict_set (k : K) (v : Z) (d : dict) : dict :=
  match d with
  | [] => [(k, v)]
  | (k', v') :: d' =>
      if decide (k = k') then (k', v) :: d' else (k', v') :: dict_set k v d'
  end.

(** [d[k] += v] on a [collections.defaultdict(int)] *)
Definition dict_add (k : K) (v : Z) (d : dict) : dict :=
  dict_set k (default 0 (dict_get k d) + v) d.

(** [sum(d.values())] *)
Definition total (d : dict) : Z := foldr Z.add 0 (values d).

(** [max(d, key=d.get)] scanning the keys in insertion order: [best] is
    replaced only by a key with a strictly larger value, so the first
    key that reaches the maximum wins. *)
Fixpoint max_from (best : K * Z) (d : dict) : K * Z :=
  match d with
  | [] => best
  | (k, v) :: d' => max_from (if best.2 <? v then (k, v) else best) d'
  end.

Definition max_key (d : dict) : option K :=
  match d with
  | [] => None
  | kv :: d' => Some (max_from kv d').1
  end.
End Dict.

Arguments dict K : clear implicits.

(** ** The notebook *)

Definition symbols0 : list string :=
  ["a"; "b"; "c"; "d"; "e"; "f"; "g"; "h"; "i"; "j"; "k"; "l"; "m";
   "n"; "o"; "p"; "q"; "r"; "s"; "t"; "u"; "v"; "w"; "x"; "y"; "z";
   "_"; "[UNK]"].

(** The loop that fills [token_freqs] from [raw_token_freqs]. *)
Fixpoint init_loop (raw : dict string) (token_freqs : dict string)
  : dict string :=
  match raw with
  | [] => token_freqs
  | (token, freq) :: raw' =>
      init_loop raw' (dict_set (join " " (chars token)) freq token_freqs)
  end.

Definition init_token_freqs (raw : dict string) : dict string :=
  init_loop raw [].

(** The pairs [(symbols[i], symbols[i + 1])] for [i] in
    [range(len(symbols) - 1)]. *)
Fixpoint adjacent (symbols : list string) : list (string * string) :=
  match symbols with
  | a :: (b :: _) as rest => (a, b) :: adjacent rest
  | _ => []
  end.

(** The inner loop of [get_max_freq_pair]. *)
Definition count_token (token : string) (freq : Z)
    (pairs : dict (string * string)) : dict (string * string) :=
  foldl (fun acc p => dict_add p freq acc) pairs (adjacent (split token)).

(** The dictionary [pairs] when the outer loop is over. *)
Definition pair_freqs_from (pairs : dict (string * string))
    (token_freqs : dict string) : dict (string * string) :=
  foldl (fun acc tf => count_token tf.1 tf.2 acc) pairs token_freqs.

Definition pair_freqs (token_freqs : dict string) : dict (string * string) :=
  pair_freqs_from [] token_freqs.

(** [None] is the [ValueError] of [max] on an empty dictionary. *)
Definition get_max_freq_pair (token_freqs : dict string)
  : option (string * string) :=
  max_key (pair_freqs token_freqs).

(** The loop of [merge_symbols] that fills [new_token_freqs]. The value
    [token_freqs[token]] that the loop stores is [freq], the value of the
    item it visits; [merge_symbols_st] below reads it from the table. *)
Fixpoint merge_loop (max_freq_pair : string * string)
    (items : dict string) (new_token_freqs : dict string) : dict string :=
  match items with
  | [] => new_token_freqs
  | (token, freq) :: items' =>
      let new_token :=
        replace (max_freq_pair.1 +:+ " " +:+ max_freq_pair.2)
                (max_freq_pair.1 +:+ max_freq_pair.2) token in
      merge_loop max_freq_pair items' (dict_set new_token freq new_token_freqs)
  end.

(** [merge_symbols] returns the new table; the second component is the
    list [symbols] after the call. *)
Definition merge_symbols (max_freq_pair : string * string)
    (token_freqs : dict string) (symbols : list string)
  : dict string * list string :=
  (merge_loop max_freq_pair token_freqs [],
   symbols ++ [max_freq_pair.1 +:+ max_freq_pair.2]).

(** The state of the training loop. *)
Record training := Training {
  tr_token_freqs : dict string;
  tr_symbols : list string;
  tr_merges : list (string * string)  (* the pairs printed, in order *)
}.

(** [num_merges] iterations of the training loop. *)
Fixpoint train_loop (num_merges : nat) (st : training) : option training :=
  match num_merges with
  | O => Some st
  | S n =>
      match get_max_freq_pair (tr_token_freqs st) with
      | None => None
      | Some max_freq_pair =>
          let '(token_freqs, symbols) :=
            merge_symbols max_freq_pair (tr_token_freqs st) (tr_symbols st) in
          train_loop n (Training token_freqs symbols
                                 (tr_merges st ++ [max_freq_pair]))
      end
  end.

Definition train (num_merges : nat) (raw : dict string) : option training :=
  train_loop num_merges (Training (init_token_freqs raw) symbols0 []).

Definition raw_token_freqs : dict string :=
  [("fast_", 4); ("faster_", 3); ("tall_", 5); ("taller_", 4)].

(** ** Segmentation *)

(** The variables of the [while] loop of [segment_BPE]. *)
Record seg_state := SegState {
  start : nat;
  end_ : nat;
  cur_output : list string
}.

(** [start < len(token) and start < end] *)
Definition seg_guard (token : string) (st : seg_state) : bool :=
  (start st <? String.length token)%nat && (start st <? end_ st)%nat.

(** The body of the [while] loop. *)
Definition seg_body (symbols : list string) (token : string)
    (st : seg_state) : seg_state :=
  if bool_decide (slice token (start st) (end_ st) ∈ symbols)
  then SegState (end_ st) (String.length token)
                (cur_output st ++ [slice token (start st) (end_ st)])
  else SegState (start st) (end_ st - 1) (cur_output st).

Definition seg_measure (token : string) (st : seg_state) : nat :=
  ((String.length token - start st) * S (String.length token) + end_ st)%nat.

(** The [while] loop, from the state [st] to the state at its exit. *)
Equations? seg_while (symbols : list string) (token : string)
    (st : seg_state) : seg_state by wf (seg_measure token st) lt :=
  seg_while symbols token st with inspect (seg_guard token st) := {
    | exist _ true _ => seg_while symbols token (seg_body symbols token st)
    | exist _ false _ => st }.
Proof.
  unfold seg_guard in e. apply andb_prop in e as [H1 H2].
  apply Nat.ltb_lt in H1, H2.
  unfold seg_measure, seg_body. case_bool_decide; simpl; nia.
Qed.

(** The statement after the loop: [if start < len(token)]. *)
Definition seg_finish (token : string) (st : seg_state) : list string :=
  if (start st <? String.length token)%nat
  then cur_output st ++ ["[UNK]"]
  else cur_output st.

(** The list [cur_output] of one token when its iteration is over. *)
Definition segment_token (symbols : list string) (token : string)
  : list string :=
  seg_finish token
    (seg_while symbols token (SegState 0 (String.length token) [])).

Definition segment_BPE (tokens : list string) (symbols : list string)
  : list string :=
  map (fun token => join " " (segment_token symbols token)) tokens.

(** ** The store

    [symbols] and [token_freqs] are mutable objects that the functions
    receive by reference. The store maps a location to the object held
    there; a computation takes the store and gives an outcome and the
    store it leaves. *)

Abbreviation loc := positive (only parsing).

Inductive obj :=
| OTable (d : dict string)             (* a [dict] from [str] to [int] *)
| OPairs (d : dict (string * string))  (* the [defaultdict] [pairs] *)
| OList (l : list string).             (* a [list] of [str] *)

Abbreviation store := (gmap loc obj) (only parsing).

Inductive exn := TypeError | KeyError | ValueError.

Inductive outcome (A : Type) :=
| Ok (a : A)
| Raise (e : exn).
Arguments Ok {A} a.
Arguments Raise {A} e.

Definition M (A : Type) : Type := store -> outcome A * store.

Definition raise {A} (e : exn) : M A := fun h => (Raise e, h).

#[export] Instance M_ret : MRet M := fun A a h => (Ok a, h).
#[export] Instance M_bind : MBind M := fun A B f m h =>
  match m h with
  | (Ok a, h') => f a h'
  | (Raise e, h') => (Raise e, h')
  end.

(** A new object at a location that is not in use. *)
Definition alloc (o : obj) : M loc :=
  fun h => let l := fresh (dom h) in (Ok l, <[l := o]> h).

Definition read_table (l : loc) : M (dict string) :=
  fun h => match h !! l with
           | Some (OTable d) => (Ok d, h)
           | _ => (Raise TypeError, h)
           end.

Definition read_pairs (l : loc) : M (dict (string * string)) :=
  fun h => match h !! l with
           | Some (OPairs d) => (Ok d, h)
           | _ => (Raise TypeError, h)
           end.

(** [l.append(x)] *)
Definition list_append (l : loc) (x : string) : M unit :=
  fun h => match h !! l with
           | Some (OList xs) => (Ok (), <[l := OList (xs ++ [x])]> h)
           | _ => (Raise TypeError, h)
           end.

(** [d[k]] *)
Definition table_getitem (l : loc) (k : string) : M Z :=
  d ← read_table l;
  match dict_get k d with
  | Some v => mret v
  | None => raise KeyError
  end.

(** [d[k] = v] *)
Definition table_setitem (l : loc) (k : string) (v : Z) : M unit :=
  fun h => match h !! l with
           | Some (OTable d) => (Ok (), <[l := OTable (dict_set k v d)]> h)
           | _ => (Raise TypeError, h)
           end.

(** [pairs[k] += v] *)
Definition pairs_additem (l : loc) (k : string * string) (v : Z) : M unit :=
  fun h => match h !! l with
           | Some (OPairs d) => (Ok (), <[l := OPairs (dict_add k v d)]> h)
           | _ => (Raise TypeError, h)
           end.

(** [for x in xs: f x] *)
Fixpoint for_each {A} (xs : list A) (f : A -> M unit) : M unit :=
  match xs with
  | [] => mret ()
  | x :: xs' => f x ;; for_each xs' f
  end.

(** [get_max_freq_pair] on the store: [token_freqs] is the location of
    the argument. *)
Definition get_max_freq_pair_st (token_freqs : loc) : M (string * string) :=
  pairs ← alloc (OPairs []);
  items ← read_table token_freqs;
  for_each items (fun '(token, freq) =>
    for_each (adjacent (split token)) (fun p =>
      pairs_additem pairs p freq)) ;;
  d ← read_pairs pairs;
  match max_key d with
  | Some p => mret p
  | None => raise ValueError
  end.

(** [merge_symbols] on the store: [token_freqs] and [symbols] are the
    locations of the arguments, the result is the location of
    [new_token_freqs]. *)
Definition merge_symbols_st (max_freq_pair : string * string)
    (token_freqs symbols : loc) : M loc :=
  list_append symbols (max_freq_pair.1 +:+ max_freq_pair.2) ;;
  new_token_freqs ← alloc (OTable []);
  items ← read_table token_freqs;
  for_each items (fun '(token, _) =>
    let new_token :=
      replace (max_freq_pair.1 +:+ " " +:+ max_freq_pair.2)
              (max_freq_pair.1 +:+ max_freq_pair.2) token in
    v ← table_getitem token_freqs token;
    table_setitem new_token_freqs new_token v) ;;
  mret new_token_freqs.

(** The training loop on the store: [token_freqs] is rebound to the
    table that [merge_symbols] returns, [symbols] is the list that it
    extends, and [printed] collects the pairs that the loop prints. The
    result is the location that [token_freqs] names at the end. *)
Fixpoint train_st (num_merges : nat) (token_freqs symbols : loc)
    (printed : list (string * string)) : M (loc * list (string * string)) :=
  match num_merges with
  | O => mret (token_freqs, printed)
  | S n =>
      max_freq_pair ← get_max_freq_pair_st token_freqs;
      token_freqs' ← merge_symbols_st max_freq_pair token_freqs symbols;
      train_st n token_freqs' symbols (printed ++ [max_freq_pair])
  end.

(** ** Definitions used by the statements *)

(** [s] without its first [k] characters. *)
Fixpoint sdrop (k : nat) (s : string) : string :=
  match k, s with
  | O, _ => s
  | S _, EmptyString => ""
  | S k', String _ s' => sdrop k' s'
  end.

(** The first [k] characters of [s]. *)
Fixpoint stake (k : nat) (s : string) : string :=
  match k, s with
  | O, _ => ""
  | S _, EmptyString => ""
  | S k', String c s' => String c (stake k' s')
  end.

(** The state after [n] iterations of the body of the [while] loop. *)
Definition seg_iter (symbols : list string) (token : string) (n : nat)
    (st : seg_state) : seg_state :=
  Nat.iter n (seg_body symbols token) st.

(** [piece] is the longest prefix of [rest] that is a symbol. *)
Definition longest_match (symbols : list string) (rest piece : string)
  : Prop :=
  piece <> "" /\ piece ∈ symbols /\ String.prefix piece rest = true /\
  forall q, String.prefix q rest = true ->
            (String.length piece < String.length q)%nat -> q ∉ symbols.

(** No prefix of [rest] is a symbol. *)
Definition no_match (symbols : list string) (rest : string) : Prop :=
  forall q, q <> "" -> String.prefix q rest = true -> q ∉ symbols.

(** Greedy longest-match segmentation of [rest]: nothing for the empty
    text, the longest symbol that starts the text followed by the
    segmentation of what comes after it, and one unknown marker for a
    text that no symbol starts. *)
Inductive greedy (symbols : list string) : string -> list string -> Prop :=
| greedy_done : greedy symbols "" []
| greedy_unk rest :
    rest <> "" -> no_match symbols rest -> greedy symbols rest ["[UNK]"]
| greedy_match rest piece out :
    longest_match symbols rest piece ->
    greedy symbols (sdrop (String.length piece) rest) out ->
    greedy symbols rest (piece :: out).

(** The lowercase letters and the end-of-word marker, as symbols. *)
Definition alphabet : list string := chars "abcdefghijklmnopqrstuvwxyz_".

(** Every character of [s] is in the alphabet. *)
Definition over_alphabet (s : string) : Prop :=
  Forall (fun c => c ∈ alphabet) (chars s).

(** A store with the table and the vocabulary of the notebook. *)
Definition notebook_store : store :=
  <[1%positive := OTable (init_token_freqs raw_token_freqs)]>
    (<[2%positive := OList symbols0]> ∅).

(** The text that [merge_symbols] looks for, and the text it puts. *)
Definition joined (p : string * string) : string := p.1 +:+ " " +:+ p.2.
Definition merged (p : string * string) : string := p.1 +:+ p.2.

(** The key that [merge_symbols] makes of the key [token]. *)
Definition merge_key (p : string * string) (token : string) : string :=
  replace (joined p) (merged p) token.

(** A loop that stores every item of [items] under the key [f] makes of
    its key; the loops of [merge_symbols] and of the construction of
    [token_freqs] are of this form. *)
Fixpoint rekey (f : string -> string) (items acc : dict string)
  : dict string :=
  match items with
  | [] => acc
  | (k, v) :: items' => rekey f items' (dict_set (f k) v acc)
  end.

(** The state of the training loop after an iteration that selected [p]. *)
Definition merge_step (p : string * string) (st : training) : training :=
  Training (merge_symbols p (tr_token_freqs st) (tr_symbols st)).1
           (merge_symbols p (tr_token_freqs st) (tr_symbols st)).2
           (tr_merges st ++ [p]).

(** A table with two keys that the merge of [("a", "b")] makes equal. *)
Definition colliding_table : dict string := [("a b", 1); ("ab", 2)].

(** The merge of the pair [p] on a sequence of symbols, as the text of
    the notebook describes it: from left to right, every symbol [p.1]
    followed by the symbol [p.2] becomes the symbol [merged p], and
    every other symbol stays. *)
Fixpoint merge_pair_symbols (p : string * string) (symbols : list string)
  : list string :=
  match symbols with
  | [] => []
  | x :: rest =>
      match rest with
      | [] => [x]
      | y :: rest' =>
          if decide (x = p.1 /\ y = p.2)
          then merged p :: merge_pair_symbols p rest'
          else x :: merge_pair_symbols p rest
      end
  end.

(** A corpus whose second merge meets the symbol ["ta"] before ["b"]. *)
Definition boundary_corpus : dict string :=
  [("ta", 20); ("tab", 3); ("ab", 7)].

(** The number of positions of [symbols] at which [p] is adjacent. *)
Definition occurrences (p : string * string) (symbols : list string) : Z :=
  Z.of_nat (length (filter (fun q => q = p) (adjacent symbols))).

(** The frequency of every word, once for each place of the word at
    which [p] is adjacent. *)
Definition pair_total (p : string * string) (token_freqs : dict string) : Z :=
  foldr (fun tf acc => tf.2 * occurrences p (split tf.1) + acc) 0 token_freqs.

(** The summed frequency of the words that contain [p] as adjacent
    symbols, each word counted once. *)
Definition containing_total (p : string * string) (token_freqs : dict string)
  : Z :=
  foldr (fun tf acc =>
           (if decide (p ∈ adjacent (split tf.1)) then tf.2 else 0) + acc)
        0 token_freqs.

(** A word in which a pair is adjacent twice. *)
Definition banana_table : dict string := init_token_freqs [("banana_", 1)].

(** A corpus whose only word is the text of the unknown marker. *)
Definition unk_corpus : dict string := [("[UNK]", 1)].

(** No blank in [s]. *)
Definition no_blank (s : string) : Prop := squeeze s = s.

(** No white space in [s]. *)
Fixpoint no_space (s : string) : bool :=
  match s with
  | EmptyString => true
  | String c s' => negb (is_space c) && no_space s'
  end.

(** The elements of [l] in the order of their first occurrence; [seen]
    holds the elements met so far. *)
Fixpoint first_seen {A} `{EqDecision A} (seen l : list A) : list A :=
  match l with
  | [] => []
  | x :: l' =>
      if decide (x ∈ seen) then first_seen seen l'
      else x :: first_seen (seen ++ [x]) l'
  end.

(** The adjacent pairs of all keys, in the order in which the loops of
    [get_max_freq_pair] visit them. *)
Definition scanned_pairs (token_freqs : dict string)
  : list (string * string) :=
  concat ((fun tf => adjacent (split tf.1)) <$> token_freqs).

(** [old] is a part of [s]. *)
Definition occurs (old s : string) : Prop :=
  exists pre post, s = pre +:+ old +:+ post.

(** [s'] is [s] without some of its blanks: the other characters are the
    same, in the same order. *)
Inductive blank_deleted : string -> string -> Prop :=
| bd_nil : blank_deleted "" ""
| bd_keep c s s' :
    blank_deleted s s' -> blank_deleted (String c s) (String c s')
| bd_drop s s' :
    blank_deleted s s' -> blank_deleted (String " " s) s'.

(** The frequency of the last item of [items] whose key [f] turns into
    [k]. *)
Fixpoint last_freq (f : string -> string) (k : string) (items : dict string)
  : option Z :=
  match items with
  | [] => None
  | (k0, v0) :: items' =>
      match last_freq f k items' with
      | Some v => Some v
      | None => if decide (f k0 = k) then Some v0 else None
      end
  end.

(** A key in the form that the construction of [token_freqs] gives it:
    pieces without white space, with one blank between two pieces and
    none before the first or after the last. [after_blank] says that
    the character before [s] is a blank, or that [s] is the whole
    key. *)
Fixpoint canon_from (after_blank : bool) (s : string) : bool :=
  match s with
  | EmptyString => negb after_blank
  | String c s' =>
      if is_space c
      then Ascii.eqb c " " && negb after_blank && canon_from true s'
      else canon_from false s'
  end.

Definition canonical (s : string) : Prop :=
  s = "" \/ canon_from true s = true.

(** The number of characters of all keys. *)
Definition key_chars (t : dict string) : nat :=
  sum_list_with String.length (keys t).

(** The number of places between two characters of a raw word, summed
    over the raw words. *)
Definition raw_gaps (raw : dict string) : nat :=
  sum_list_with (fun w => String.length w - 1)%nat (keys raw).

(** The frequency of every key, once for each place between two of its
    symbols. *)
Definition adjacency_mass (token_freqs : dict string) : Z :=
  foldr (fun tf acc => tf.2 * Z.of_nat (length (split tf.1) - 1) + acc)
        0 token_freqs.

(** The key with one blank put between every two adjacent characters
    that are not white space; [after_char] says that the character before
    [s] is not white space. A merge deletes blanks between two such
    characters only, so this is the key that the construction of
    [token_freqs] gave to the word of the key. *)
Fixpoint expand_from (after_char : bool) (s : string) : string :=
  match s with
  | EmptyString => ""
  | String c s' =>
      if is_space c then String c (expand_from false s')
      else if after_char then String " " (String c (expand_from true s'))
           else String c (expand_from true s')
  end.

Definition expand (s : string) : string := expand_from false s.

(** [after_char] at the end of [s]. *)
Fixpoint ends_char (after_char : bool) (s : string) : bool :=
  match s with
  | EmptyString => after_char
  | String c s' => ends_char (negb (is_space c)) s'
  end.

(** A Word Frequency Table: the keys are segmentations of pairwise
    distinct words. *)
Definition word_table (t : dict string) : Prop :=
  NoDup (expand <$> keys t).

(** [a] is the end of [r]. *)
Definition ends_with (a r : string) : bool :=
  (String.length a <=? String.length r)%nat &&
  String.eqb (sdrop (String.length r - String.length a) r) a.

(** What [str.replace] with the text [a ++ " " ++ b] does to the symbols
    of a key, read from left to right. [r] is the part of the last symbol
    read that no replaced occurrence covers, and [rest] are the symbols
    after it. The next symbol [t] is glued to the symbol being built when
    [a] is the end of [r] and [b] is the start of [t]. The result is what
    is glued to the symbol being built, and the symbols that follow it. *)
Fixpoint glue (a b r : string) (rest : list string) : string * list string :=
  match rest with
  | [] => ("", [])
  | t :: rest' =>
      if ends_with a r && String.prefix b t
      then (t +:+ (glue a b (sdrop (String.length b) t) rest').1,
            (glue a b (sdrop (String.length b) t) rest').2)
      else ("", (t +:+ (glue a b t rest').1) :: (glue a b t rest').2)
  end.

(** The symbols of the key that [merge_symbols] makes of a key with the
    symbols [symbols]. *)
Definition merge_key_symbols (p : string * string) (symbols : list string)
  : list string :=
  match symbols with
  | [] => []
  | t :: rest => (t +:+ (glue p.1 p.2 t rest).1) :: (glue p.1 p.2 t rest).2
  end.

(** Wherever the text [u] starts at the start of a symbol of [symbols],
    it lies within that symbol: no delimiter cuts it. *)
Definition tight (u : string) (symbols : list string) : Prop :=
  forall l1 t l2, symbols = l1 ++ t :: l2 ->
    String.prefix u (join "" (t :: l2)) = true -> String.prefix u t = true.

(** A symbol of a key: not empty, and without white space. *)
Definition symbol (t : string) : Prop := t <> "" /\ no_space t = true.

(** The invariant of the keys [ks] of [token_freqs] and of the appended
    symbols [syms]: the keys are symbols with one blank between them; no
    delimiter of a key cuts, where it starts at the start of a symbol, a
    text that is a symbol of a key or an appended symbol. *)
Definition aligned (syms ks : list string) : Prop :=
  Forall canonical ks /\
  (forall k1 k2 u, k1 ∈ ks -> k2 ∈ ks -> u ∈ split k1 -> tight u (split k2)) /\
  (forall s k, s ∈ syms -> k ∈ ks -> tight s (split k)).

(** A corpus whose only word holds a blank. *)
Definition blank_corpus : dict string := [("a b", 1)].

(** * Properties *)

(** ** Strings *)

Lemma sapp_assoc (a b c : string) : (a +:+ b) +:+ c = a +:+ b +:+ c.
Proof. induction a; simpl; congruence. Qed.

Lemma sapp_nil_r (a : string) : a +:+ "" = a.
Proof. induction a; simpl; congruence. Qed.

Lemma slength_app (a b : string) :
  String.length (a +:+ b) = (String.length a + String.length b)%nat.
Proof. induction a; simpl; congruence. Qed.

Lemma sdrop_0 (s : string) : sdrop 0 s = s.
Proof. by destruct s. Qed.

Lemma sdrop_app (a b : string) : sdrop (String.length a) (a +:+ b) = b.
Proof. induction a; simpl; [apply sdrop_0 | done]. Qed.

Lemma prefix_app (p s : string) :
  String.prefix p s = true <-> exists r, s = p +:+ r.
Proof.
  revert s. induction p as [|c p IH]; intros s.
  - split; [intros _; by exists s |]. by destruct s.
  - destruct s as [|c' s]; simpl.
    + split; [done | by intros [r ?]].
    + destruct (ascii_dec c c') as [->|Hne].
      * rewrite IH. split; intros [r Hr]; exists r; simpl in *; congruence.
      * split; [done | intros [r Hr]; simpl in Hr; congruence].
Qed.

Lemma squeeze_app (a b : string) :
  squeeze (a +:+ b) = squeeze a +:+ squeeze b.
Proof.
  induction a as [|c a IH]; simpl; [done |].
  destruct (Ascii.eqb c " "); simpl; congruence.
Qed.

Lemma squeeze_idemp (s : string) : squeeze (squeeze s) = squeeze s.
Proof.
  induction s as [|c s IH]; simpl; [done |].
  destruct (Ascii.eqb c " ") eqn:E; simpl; [done |]. by rewrite E, IH.
Qed.

Lemma squeeze_joined_merged (p : string * string) :
  squeeze (joined p) = squeeze (merged p).
Proof. unfold joined, merged. by rewrite !squeeze_app. Qed.

(** Replacing a text by one with the same letters keeps the letters. *)
Lemma squeeze_replace_go (old new : string) :
  old <> "" -> squeeze old = squeeze new ->
  forall s k, squeeze (replace_go old new k s) = squeeze (sdrop k s).
Proof.
  intros Hne Hsq. induction s as [|c s IH]; intros k.
  - by destruct k.
  - destruct k as [|k]; [| apply IH].
    cbn [replace_go sdrop].
    destruct (String.prefix old (String c s)) eqn:Hp.
    + apply prefix_app in Hp as [r Hr].
      destruct old as [|c' old]; [done |].
      simpl in Hr. injection Hr as Hc Hs. subst c' s.
      rewrite squeeze_app, IH, <- Hsq.
      replace (String.length (String c old) - 1)%nat
        with (String.length old) by (simpl; lia).
      by rewrite sdrop_app, <- squeeze_app.
    + cbn [squeeze]. by rewrite IH, sdrop_0.
Qed.

Lemma squeeze_replace (p : string * string) (s : string) :
  squeeze (replace (joined p) (merged p) s) = squeeze s.
Proof.
  unfold replace.
  destruct (joined p) eqn:E.
  - unfold joined in E. by destruct (p.1).
  - rewrite <- E, squeeze_replace_go, ?sdrop_0; [done | | ].
    + by rewrite E.
    + apply squeeze_joined_merged.
Qed.

Lemma chars_app (a b : string) : chars (a +:+ b) = chars a ++ chars b.
Proof. induction a as [|c a IH]; simpl; [done | by rewrite IH]. Qed.

Lemma squeeze_join_chars (s : string) : squeeze (join " " (chars s)) = squeeze s.
Proof.
  induction s as [|c s IH]; [done |].
  cbn [chars join]. destruct (chars s) as [|x l] eqn:E.
  - destruct s; [| done]. cbn [squeeze]. by destruct (Ascii.eqb c " ").
  - change (String c "" +:+ " " +:+ join " " (x :: l))
      with (String c (String " " (join " " (x :: l)))).
    cbn [squeeze]. rewrite IH.
    replace (Ascii.eqb " " " ") with true by done. done.
Qed.

(** ** Dictionaries *)

Section DictFacts.
Context {K : Type} `{EqDecision K}.
Implicit Types (d : dict K) (k : K) (v : Z).

Lemma keys_app d1 d2 : keys (d1 ++ d2) = keys d1 ++ keys d2.
Proof. apply fmap_app. Qed.

Lemma total_app d1 d2 : total (d1 ++ d2) = total d1 + total d2.
Proof.
  unfold total, values. induction d1 as [|[k v] d1 IH]; csimpl; [done |].
  rewrite IH. lia.
Qed.

Lemma dict_set_fresh k v d : k ∉ keys d -> dict_set k v d = d ++ [(k, v)].
Proof.
  induction d as [|[k' v'] d IH]; simpl; [done |].
  intros [Hne Hd]%not_elem_of_cons.
  destruct (decide (k = k')); [done |]. by rewrite IH.
Qed.

Lemma dict_get_None k d : dict_get k d = None <-> k ∉ keys d.
Proof.
  induction d as [|[k' v'] d IH]; simpl.
  - split; [intros _; apply not_elem_of_nil | done].
  - rewrite not_elem_of_cons.
    destruct (decide (k = k')); [split; [done | tauto] |]. tauto.
Qed.

Lemma dict_get_item k v d : NoDup (keys d) -> (k, v) ∈ d -> dict_get k d = Some v.
Proof.
  induction d as [|[k' v'] d IH]; simpl; [by intros _ ?%elem_of_nil |].
  intros [Hk Hd]%NoDup_cons [Heq | Hin]%elem_of_cons.
  - injection Heq as -> ->. by rewrite decide_True.
  - destruct (decide (k = k')) as [-> | _]; [| by apply IH].
    destruct Hk. apply list_elem_of_fmap. by exists (k', v).
Qed.
End DictFacts.

(** ** Storing items under new keys *)

Lemma merge_loop_rekey (p : string * string) (items acc : dict string) :
  merge_loop p items acc = rekey (merge_key p) items acc.
Proof.
  revert acc. induction items as [|[k v] items IH]; intros acc; [done |].
  simpl. apply IH.
Qed.

Lemma init_loop_rekey (raw acc : dict string) :
  init_loop raw acc = rekey (fun w => join " " (chars w)) raw acc.
Proof.
  revert acc. induction raw as [|[k v] raw IH]; intros acc; [done |].
  simpl. apply IH.
Qed.

(** When the new keys are pairwise distinct, every item is appended. *)
Lemma rekey_fresh (f : string -> string) (items acc : dict string) :
  NoDup (keys acc ++ (f <$> keys items)) ->
  rekey f items acc = acc ++ (prod_map f id <$> items).
Proof.
  revert acc. induction items as [|[k v] items IH]; intros acc Hnd.
  - by rewrite app_nil_r.
  - simpl in *.
    apply NoDup_app in Hnd as (Hacc & Hdisj & [Hk Hitems]%NoDup_cons).
    assert (f k ∉ keys acc) as Hfresh.
    { intros Hin. apply (Hdisj _ Hin). left. }
    rewrite dict_set_fresh by done.
    rewrite IH.
    + by rewrite <- app_assoc.
    + rewrite keys_app. simpl. rewrite <- app_assoc. simpl.
      apply NoDup_app. split; [done |]. split.
      * intros x Hx. apply Hdisj, Hx.
      * apply NoDup_cons. done.
Qed.

Lemma total_rekeyed (f : string -> string) (items : dict string) :
  total (prod_map f id <$> items) = total items.
Proof.
  unfold total, values. by rewrite <- list_fmap_compose.
Qed.

Lemma keys_rekeyed (f : string -> string) (items : dict string) :
  keys (prod_map f id <$> items) = f <$> keys items.
Proof.
  unfold keys. rewrite <- !list_fmap_compose. done.
Qed.

Lemma NoDup_squeezed_keys (f : string -> string) (l : list string) :
  (forall s, squeeze (f s) = squeeze s) ->
  NoDup (squeeze <$> l) -> NoDup (f <$> l).
Proof.
  intros Hf Hnd. apply (NoDup_fmap_1 squeeze).
  rewrite <- list_fmap_compose.
  by rewrite (list_fmap_ext (squeeze ∘ f) squeeze l) by (intros; simpl; auto).
Qed.

(** A merge that makes no two keys equal keeps every item, in order. *)
Lemma merge_symbols_no_collision (p : string * string) (t : dict string)
    (syms : list string) :
  NoDup (merge_key p <$> keys t) ->
  (merge_symbols p t syms).1 = prod_map (merge_key p) id <$> t.
Proof.
  intros Hnd. unfold merge_symbols. simpl.
  rewrite merge_loop_rekey, rekey_fresh; done.
Qed.

Lemma merge_symbols_distinct_words (p : string * string) (t : dict string)
    (syms : list string) :
  NoDup (squeeze <$> keys t) ->
  total (merge_symbols p t syms).1 = total t /\
  NoDup (squeeze <$> keys (merge_symbols p t syms).1).
Proof.
  intros Hnd.
  rewrite merge_symbols_no_collision
    by (apply NoDup_squeezed_keys; [apply squeeze_replace | done]).
  split; [apply total_rekeyed |].
  rewrite keys_rekeyed, <- list_fmap_compose.
  by rewrite (list_fmap_ext (squeeze ∘ merge_key p) squeeze (keys t))
    by (intros; simpl; apply squeeze_replace).
Qed.

Lemma train_loop_S (n : nat) (st : training) :
  train_loop (S n) st =
  match get_max_freq_pair (tr_token_freqs st) with
  | None => None
  | Some p => train_loop n (merge_step p st)
  end.
Proof. done. Qed.

Lemma train_loop_distinct_words (n : nat) (st st' : training) :
  NoDup (squeeze <$> keys (tr_token_freqs st)) ->
  train_loop n st = Some st' ->
  total (tr_token_freqs st') = total (tr_token_freqs st) /\
  NoDup (squeeze <$> keys (tr_token_freqs st')).
Proof.
  revert st. induction n as [|n IH]; intros st Hnd Hrun.
  - by injection Hrun as <-.
  - rewrite train_loop_S in Hrun.
    destruct (get_max_freq_pair (tr_token_freqs st)) as [p|]; [| done].
    destruct (merge_symbols_distinct_words p (tr_token_freqs st)
                (tr_symbols st) Hnd) as [Htot Hnd'].
    apply IH in Hrun as [Htot' ?]; [| done].
    split; [| done]. rewrite Htot'. apply Htot.
Qed.

Lemma init_token_freqs_distinct_words (raw : dict string) :
  NoDup (squeeze <$> keys raw) ->
  init_token_freqs raw = prod_map (fun w => join " " (chars w)) id <$> raw /\
  total (init_token_freqs raw) = total raw /\
  squeeze <$> keys (init_token_freqs raw) = squeeze <$> keys raw.
Proof.
  intros Hnd. unfold init_token_freqs.
  rewrite init_loop_rekey, rekey_fresh.
  - simpl. split; [done |]. split; [apply total_rekeyed |].
    rewrite keys_rekeyed, <- list_fmap_compose.
    apply list_fmap_ext. intros; simpl; apply squeeze_join_chars.
  - simpl. apply NoDup_squeezed_keys; [apply squeeze_join_chars | done].
Qed.

Lemma no_blank_squeeze_keys (l : list string) :
  Forall no_blank l -> squeeze <$> l = l.
Proof.
  induction 1 as [|x l Hx _ IH]; csimpl; [done |]. by rewrite Hx, IH.
Qed.

(** ** One word under two segmentations *)

(** A table that holds one word under two segmentations is not a Word
    Frequency Table. On the keys ["a b"] and ["ab"] the selected pair is
    [("a", "b")], both keys become ["ab"], and the assignment
    [new_token_freqs[new_token] = token_freqs[token]] keeps the last
    frequency only. *)
Lemma merge_symbols_collision_drops_frequency :
  ~ word_table colliding_table /\
  get_max_freq_pair colliding_table = Some ("a", "b") /\
  (merge_symbols ("a", "b") colliding_table symbols0).1 = [("ab", 2)] /\
  total colliding_table = 3 /\
  total (merge_symbols ("a", "b") colliding_table symbols0).1 = 2.
Proof.
  split; [| vm_compute; repeat split; congruence].
  unfold word_table. vm_compute. intros H.
  apply NoDup_cons in H as [H _]. apply H. left.
Qed.

(** ** The example of the notebook *)

(** C3: on the corpus of the notebook ten merge iterations select the
    pairs (t,a), (ta,l), (tal,l), (f,a), (fa,s), (fas,t), (e,r), (er,_),
    (tall,_), (fast,_) in this order, and the final table has the keys
    ["fast_"], ["fast er_"], ["tall_"], ["tall er_"] with the frequencies
    of the raw words. *)
Theorem train_notebook_example :
  init_token_freqs raw_token_freqs =
    [("f a s t _", 4); ("f a s t e r _", 3); ("t a l l _", 5);
     ("t a l l e r _", 4)] /\
  train 10 raw_token_freqs =
    Some (Training
            [("fast_", 4); ("fast er_", 3); ("tall_", 5); ("tall er_", 4)]
            (symbols0 ++ ["ta"; "tal"; "tall"; "fa"; "fas"; "fast"; "er";
                          "er_"; "tall_"; "fast_"])
            [("t", "a"); ("ta", "l"); ("tal", "l"); ("f", "a"); ("fa", "s");
             ("fas", "t"); ("e", "r"); ("er", "_"); ("tall", "_");
             ("fast", "_")]).
Proof. split; vm_compute; reflexivity. Qed.

(** ** Replacement across a symbol boundary *)

(** C2 does not hold of the code: [str.replace] looks for the text
    ["a b"] anywhere in the key, also where the [a] is the end of a longer
    symbol. In the training run on [boundary_corpus] the first iteration
    merges (t,a) and leaves the key ["ta b"], whose symbols are ["ta"] and
    ["b"]; the second iteration selects (a,b), for which the merge of the
    symbols leaves ["ta"; "b"] as it is, but [merge_symbols] makes the
    key ["tab"], a symbol that is not in the vocabulary. *)
Theorem merge_symbols_crosses_symbol_boundary :
  train 1 boundary_corpus =
    Some (Training [("ta", 20); ("ta b", 3); ("a b", 7)]
                   (symbols0 ++ ["ta"]) [("t", "a")]) /\
  get_max_freq_pair [("ta", 20); ("ta b", 3); ("a b", 7)] = Some ("a", "b") /\
  split "ta b" = ["ta"; "b"] /\
  merge_pair_symbols ("a", "b") ["ta"; "b"] = ["ta"; "b"] /\
  merge_symbols ("a", "b") [("ta", 20); ("ta b", 3); ("a b", 7)]
                (symbols0 ++ ["ta"]) =
    ([("ta", 20); ("tab", 3); ("ab", 7)], symbols0 ++ ["ta"; "ab"]) /\
  split (merge_key ("a", "b") "ta b") = ["tab"] /\
  ("tab" ∉ symbols0 ++ ["ta"; "ab"]) /\
  train 2 boundary_corpus =
    Some (Training [("ta", 20); ("tab", 3); ("ab", 7)]
                   (symbols0 ++ ["ta"; "ab"]) [("t", "a"); ("a", "b")]).
Proof. repeat split; try (vm_compute; reflexivity). compute_done. Qed.

(** ** Updates of a dictionary *)

Section DictUpdate.
Context {K : Type} `{EqDecision K}.
Implicit Types (d : dict K) (k : K) (v : Z).

Lemma dict_get_set k k' v d :
  dict_get k' (dict_set k v d) =
  if decide (k' = k) then Some v else dict_get k' d.
Proof.
  induction d as [|[k0 v0] d IH]; simpl.
  - by destruct (decide (k' = k)).
  - destruct (decide (k = k0)) as [-> | Hne]; simpl.
    + by destruct (decide (k' = k0)).
    + rewrite IH. destruct (decide (k' = k0)) as [-> | ?]; [| done].
      by rewrite decide_False.
Qed.

Lemma keys_dict_set k v d :
  keys (dict_set k v d) =
  if decide (k ∈ keys d) then keys d else keys d ++ [k].
Proof.
  unfold keys. induction d as [|[k0 v0] d IH]; csimpl; [done |].
  destruct (decide (k = k0)) as [-> | Hne]; csimpl.
  - rewrite decide_True; [done | left].
  - rewrite IH. destruct (decide (k ∈ d.*1)) as [Hin | Hnin].
    + rewrite decide_True; [done | by right].
    + rewrite decide_False; [done |].
      by intros [? | ?]%elem_of_cons.
Qed.

Lemma elem_of_keys_dict_set k k' v d :
  k' ∈ keys (dict_set k v d) <-> k' = k \/ k' ∈ keys d.
Proof.
  rewrite keys_dict_set. destruct (decide (k ∈ keys d)).
  - split; [tauto | by intros [-> | ?]].
  - rewrite elem_of_app, list_elem_of_singleton. tauto.
Qed.

Lemma NoDup_keys_dict_set k v d :
  NoDup (keys d) -> NoDup (keys (dict_set k v d)).
Proof.
  intros Hnd. rewrite keys_dict_set. destruct (decide (k ∈ keys d)); [done |].
  apply NoDup_app. split; [done |]. split; [| apply NoDup_singleton].
  by intros x Hx ->%list_elem_of_singleton.
Qed.

Lemma dict_get_add k k' v d :
  default 0 (dict_get k' (dict_add k v d)) =
  default 0 (dict_get k' d) + (if decide (k' = k) then v else 0).
Proof.
  unfold dict_add. rewrite dict_get_set.
  destruct (decide (k' = k)) as [-> | ?]; simpl; lia.
Qed.

Lemma dict_get_is_Some k d : is_Some (dict_get k d) <-> k ∈ keys d.
Proof.
  rewrite <- not_eq_None_Some, dict_get_None.
  split; [apply dec_stable | tauto].
Qed.

(** The loop [for p in ps: d[p] += f]. *)
Lemma foldl_dict_add_get (f : Z) (ps : list K) d k :
  default 0 (dict_get k (foldl (fun acc p => dict_add p f acc) d ps)) =
  default 0 (dict_get k d)
  + f * Z.of_nat (length (filter (fun q => q = k) ps)).
Proof.
  revert d. induction ps as [|p ps IH]; intros d; simpl; [lia |].
  rewrite IH, dict_get_add, filter_cons.
  destruct (decide (k = p)) as [-> | Hne].
  - rewrite decide_True by done. simpl length. lia.
  - rewrite decide_False by done. lia.
Qed.

Lemma foldl_dict_add_keys (f : Z) (ps : list K) d k :
  k ∈ keys (foldl (fun acc p => dict_add p f acc) d ps) <->
  k ∈ keys d \/ k ∈ ps.
Proof.
  revert d. induction ps as [|p ps IH]; intros d; simpl.
  - rewrite elem_of_nil. tauto.
  - unfold dict_add at 2. rewrite IH, elem_of_keys_dict_set, elem_of_cons.
    tauto.
Qed.

Lemma foldl_dict_add_NoDup (f : Z) (ps : list K) d :
  NoDup (keys d) ->
  NoDup (keys (foldl (fun acc p => dict_add p f acc) d ps)).
Proof.
  revert d. induction ps as [|p ps IH]; intros d Hnd; simpl; [done |].
  apply IH. by apply NoDup_keys_dict_set.
Qed.

(** [max_from] returns an item among those it is given, and none of
    them has a larger value. *)
Lemma max_from_spec (best : K * Z) d :
  max_from best d ∈ best :: d /\
  forall kv, kv ∈ best :: d -> kv.2 <= (max_from best d).2.
Proof.
  revert best. induction d as [|[k v] d IH]; intros best; simpl.
  - split; [left |]. intros kv ->%list_elem_of_singleton. lia.
  - destruct (IH (if best.2 <? v then (k, v) else best)) as [Hin Hmax].
    assert (best.2 <= (max_from (if best.2 <? v then (k, v) else best) d).2
            /\ v <= (max_from (if best.2 <? v then (k, v) else best) d).2)
      as [Hb Hv].
    { pose proof (Hmax _ ltac:(left)) as H0.
      destruct (Z.ltb_spec best.2 v); simpl in H0; lia. }
    split.
    + apply elem_of_cons in Hin as [-> | Hin]; [| by do 2 right].
      destruct (best.2 <? v); [right; left | left].
    + intros kv [-> | [-> | Hkv]%elem_of_cons]%elem_of_cons;
        [done | done | apply Hmax; by right].
Qed.


Lemma max_key_None d : max_key d = None <-> d = [].
Proof. by destruct d. Qed.

Lemma max_key_Some d k :
  max_key d = Some k ->
  exists v, (k, v) ∈ d /\ forall kv, kv ∈ d -> kv.2 <= v.
Proof.
  destruct d as [|kv d]; [done |]. simpl. intros [= <-].
  destruct (max_from_spec kv d) as [Hin Hmax].
  exists (max_from kv d).2. split; [by destruct (max_from kv d) | done].
Qed.
End DictUpdate.

(** ** Symbols of a key and their pairs *)

Lemma split_go_nonempty (cur s : string) :
  Forall (fun sym => sym <> "") (split_go cur s).
Proof.
  revert cur. induction s as [|c s IH]; intros cur; simpl.
  - destruct (decide (cur = "")); [constructor | by repeat constructor].
  - destruct (is_space c); [| apply IH].
    destruct (decide (cur = "")); [apply IH |]. constructor; [done | apply IH].
Qed.

Lemma split_nonempty (s sym : string) : sym ∈ split s -> sym <> "".
Proof.
  intros Hin. pose proof (split_go_nonempty "" s) as H.
  rewrite Forall_forall in H. by apply H.
Qed.

Lemma adjacent_nil (l : list string) : adjacent l = [] <-> (length l <= 1)%nat.
Proof.
  destruct l as [|a [|b l]]; simpl; [split; [lia | done] ..|].
  split; [done | lia].
Qed.

Lemma adjacent_elem_of (l : list string) (a b : string) :
  (a, b) ∈ adjacent l -> a ∈ l /\ b ∈ l.
Proof.
  induction l as [|x [|y l] IH]; [by intros ?%elem_of_nil ..|].
  change (adjacent (x :: y :: l)) with ((x, y) :: adjacent (y :: l)).
  intros [[= -> ->] | Hin]%elem_of_cons.
  - split; [left | right; left].
  - destruct (IH Hin). split; by right.
Qed.

(** ** The dictionary [pairs] *)

Lemma count_token_get (token : string) (freq : Z)
    (d : dict (string * string)) (p : string * string) :
  default 0 (dict_get p (count_token token freq d)) =
  default 0 (dict_get p d) + freq * occurrences p (split token).
Proof. unfold count_token. apply foldl_dict_add_get. Qed.

Lemma pair_freqs_from_get (d : dict (string * string)) (t : dict string)
    (p : string * string) :
  default 0 (dict_get p (pair_freqs_from d t)) =
  default 0 (dict_get p d) + pair_total p t.
Proof.
  unfold pair_freqs_from. revert d.
  induction t as [|[token freq] t IH]; intros d; simpl; [lia |].
  rewrite IH, count_token_get. simpl. lia.
Qed.

Lemma pair_freqs_from_keys (d : dict (string * string)) (t : dict string)
    (p : string * string) :
  p ∈ keys (pair_freqs_from d t) <->
  p ∈ keys d \/
  exists token freq, (token, freq) ∈ t /\ p ∈ adjacent (split token).
Proof.
  unfold pair_freqs_from. revert d.
  induction t as [|[token freq] t IH]; intros d; simpl.
  - split; [tauto | intros [? | (? & ? & []%elem_of_nil & _)]; done].
  - rewrite IH. unfold count_token. rewrite foldl_dict_add_keys. split.
    + intros [[? | ?] | (token' & freq' & ? & ?)]; [by left | right ..].
      * exists token, freq. split; [left | done].
      * exists token', freq'. split; [by right | done].
    + intros [? | (token' & freq' & [[= -> ->] | ?]%elem_of_cons & ?)].
      * by do 2 left.
      * left. by right.
      * right. by exists token', freq'.
Qed.

Lemma pair_freqs_from_NoDup (d : dict (string * string)) (t : dict string) :
  NoDup (keys d) -> NoDup (keys (pair_freqs_from d t)).
Proof.
  unfold pair_freqs_from. revert d.
  induction t as [|[token freq] t IH]; intros d Hnd; simpl; [done |].
  apply IH. unfold count_token. by apply foldl_dict_add_NoDup.
Qed.

(** C6, as stated, fails: in the key of the word ["banana_"] the pair
    (a,n) is adjacent at two places, and the loop over [range] adds the
    frequency 1 of the word at each of them; the summed frequency of the
    words that contain the pair is 1, the total accumulated is 2. *)
Lemma pair_counted_at_every_occurrence :
  banana_table = [("b a n a n a _", 1)] /\
  dict_get ("a", "n") (pair_freqs banana_table) = Some 2 /\
  containing_total ("a", "n") banana_table = 1 /\
  dict_get ("a", "n") (pair_freqs banana_table)
    <> Some (containing_total ("a", "n") banana_table).
Proof. vm_compute. repeat split; congruence. Qed.

Lemma pair_freqs_NoDup (t : dict string) : NoDup (keys (pair_freqs t)).
Proof. apply pair_freqs_from_NoDup, NoDup_nil_2. Qed.

Lemma pair_freqs_keys (t : dict string) (p : string * string) :
  p ∈ keys (pair_freqs t) <->
  exists token freq, (token, freq) ∈ t /\ p ∈ adjacent (split token).
Proof.
  unfold pair_freqs. rewrite pair_freqs_from_keys.
  split; [intros [[]%elem_of_nil | ?]; done | by right].
Qed.

Lemma pair_freqs_get (t : dict string) (p : string * string) :
  dict_get p (pair_freqs t) =
    if decide (p ∈ keys (pair_freqs t)) then Some (pair_total p t) else None.
Proof.
  pose proof (pair_freqs_from_get [] t p) as Hget.
  fold (pair_freqs t) in Hget.
  destruct (decide (p ∈ keys (pair_freqs t))) as [Hin | Hnin].
  - apply dict_get_is_Some in Hin as [v Hv]. rewrite Hv in *.
    simpl in Hget. f_equal. lia.
  - by apply dict_get_None.
Qed.

(** C6 (amended): the total that [get_max_freq_pair] accumulates for a
    pair is the sum, over the keys of the table, of the frequency of the
    key times the number of places of the key at which the pair is
    adjacent; a pair is in [pairs] exactly when it is adjacent in the
    symbols of one single key, so no pair that spans two keys is
    counted. *)
Theorem pair_freqs_spec (t : dict string) (p : string * string) :
  NoDup (keys (pair_freqs t)) /\
  (p ∈ keys (pair_freqs t) <->
   exists token freq, (token, freq) ∈ t /\ p ∈ adjacent (split token)) /\
  dict_get p (pair_freqs t) =
    if decide (p ∈ keys (pair_freqs t)) then Some (pair_total p t) else None.
Proof.
  split; [apply pair_freqs_NoDup |].
  split; [apply pair_freqs_keys | apply pair_freqs_get].
Qed.

(** ** The most frequent pair *)

Lemma pair_freqs_nil (t : dict string) :
  pair_freqs t = [] <->
  Forall (fun token => (length (split token) <= 1)%nat) (keys t).
Proof.
  rewrite Forall_forall. split.
  - intros Hnil token [[k v] [-> Hin]]%list_elem_of_fmap. simpl.
    apply adjacent_nil.
    destruct (adjacent (split k)) as [|p l] eqn:E; [done |].
    assert (p ∈ keys (pair_freqs t)) as Hp.
    { apply pair_freqs_keys. exists k, v. split; [done |]. rewrite E. left. }
    rewrite Hnil in Hp. by apply elem_of_nil in Hp.
  - intros Hall. destruct (pair_freqs t) as [|[p v] d] eqn:E; [done |].
    assert (p ∈ keys (pair_freqs t)) as Hp by (rewrite E; left).
    apply pair_freqs_keys in Hp as (token & freq & Hin & Hp).
    assert (token ∈ keys t) as Hk.
    { apply list_elem_of_fmap. by exists (token, freq). }
    apply Hall, adjacent_nil in Hk. rewrite Hk in Hp.
    by apply elem_of_nil in Hp.
Qed.



(** ** Growth of the vocabulary *)

Lemma get_max_freq_pair_nonempty (t : dict string) (p : string * string) :
  get_max_freq_pair t = Some p -> p.1 <> "" /\ p.2 <> "".
Proof.
  intros (v & Hin & _)%max_key_Some.
  assert (p ∈ keys (pair_freqs t)) as Hp.
  { apply list_elem_of_fmap. by exists (p, v). }
  apply pair_freqs_keys in Hp as (token & freq & _ & Hp).
  destruct p as [a b]. apply adjacent_elem_of in Hp as [Ha Hb].
  split; eapply split_nonempty; eauto.
Qed.

Lemma merged_length (p : string * string) :
  p.1 <> "" -> p.2 <> "" -> (2 <= String.length (merged p))%nat.
Proof.
  unfold merged. rewrite slength_app.
  destruct p as [[|??] [|??]]; simpl; intros; try done. lia.
Qed.

(** The loop run for one more iteration. *)
Lemma train_loop_snoc (n : nat) (st : training) :
  train_loop (S n) st =
  match train_loop n st with
  | None => None
  | Some st' =>
      match get_max_freq_pair (tr_token_freqs st') with
      | None => None
      | Some p => Some (merge_step p st')
      end
  end.
Proof.
  revert st. induction n as [|n IH]; intros st.
  - rewrite train_loop_S. simpl.
    by destruct (get_max_freq_pair (tr_token_freqs st)).
  - rewrite train_loop_S. rewrite (train_loop_S n).
    destruct (get_max_freq_pair (tr_token_freqs st)) as [p|]; [| done].
    apply IH.
Qed.

Lemma train_loop_symbols (n : nat) (st st' : training) :
  train_loop n st = Some st' ->
  exists ps,
    length ps = n /\
    tr_merges st' = tr_merges st ++ ps /\
    tr_symbols st' = tr_symbols st ++ (merged <$> ps) /\
    Forall (fun sym => (2 <= String.length sym)%nat) (merged <$> ps).
Proof.
  revert st. induction n as [|n IH]; intros st Hrun.
  - injection Hrun as <-. exists []. by rewrite !app_nil_r.
  - rewrite train_loop_S in Hrun.
    destruct (get_max_freq_pair (tr_token_freqs st)) as [p|] eqn:Hp; [| done].
    apply IH in Hrun as (ps & Hlen & Hm & Hs & Hall).
    apply get_max_freq_pair_nonempty in Hp as [H1 H2].
    exists (p :: ps). simpl in *. split; [by rewrite Hlen |].
    rewrite Hm, Hs, <- !app_assoc. repeat split; try done.
    constructor; [by apply merged_length | done].
Qed.

Lemma vocabulary_growth_symbols (raw : dict string) (n : nat)
    (st : training) :
  train n raw = Some st ->
  tr_symbols st = symbols0 ++ (merged <$> tr_merges st).
Proof.
  intros Hrun. unfold train in Hrun.
  destruct (train_loop_symbols _ _ _ Hrun) as (ps & _ & Hm & Hs & _).
  simpl in Hm. cbn [tr_symbols] in Hs. by subst ps.
Qed.

(** *** Corpora over the alphabet *)

Lemma over_alphabet_app (a b : string) :
  over_alphabet (a +:+ b) <-> over_alphabet a /\ over_alphabet b.
Proof. unfold over_alphabet. by rewrite chars_app, Forall_app. Qed.

Lemma over_alphabet_no_blank (s : string) : over_alphabet s -> no_blank s.
Proof.
  unfold over_alphabet, no_blank.
  induction s as [|c s IH]; simpl; [done |].
  intros [Hc Hs]%Forall_cons. destruct (Ascii.eqb_spec c " ") as [-> | _].
  - exfalso. revert Hc. compute_done.
  - by rewrite IH.
Qed.

Lemma over_alphabet_nil : over_alphabet "".
Proof. constructor. Qed.

Lemma split_go_over_alphabet (s : string) :
  forall cur sym,
    sym ∈ split_go cur s -> over_alphabet cur ->
    over_alphabet (squeeze s) -> over_alphabet sym.
Proof.
  induction s as [|c s IH]; intros cur sym; simpl.
  - destruct (decide (cur = "")); [by intros ?%elem_of_nil |].
    by intros ->%list_elem_of_singleton.
  - intros Hin Hcur Hs.
    assert (over_alphabet (squeeze s)) as Hs'.
    { revert Hs. destruct (Ascii.eqb c " "); [done |].
      by intros [_ ?]%Forall_cons. }
    destruct (is_space c) eqn:Hsp.
    + destruct (decide (cur = "")).
      * apply (IH "" sym Hin); [apply over_alphabet_nil | done].
      * apply elem_of_cons in Hin as [-> | Hin]; [done |].
        apply (IH "" sym Hin); [apply over_alphabet_nil | done].
    + apply (IH _ _ Hin); [| done].
      apply over_alphabet_app. split; [done |].
      destruct (Ascii.eqb_spec c " ") as [-> | _]; [done |].
      apply Forall_cons in Hs as [Hc _].
      unfold over_alphabet. simpl. constructor; [done | constructor].
Qed.

Lemma get_max_freq_pair_over_alphabet (t : dict string)
    (p : string * string) :
  Forall over_alphabet (squeeze <$> keys t) ->
  get_max_freq_pair t = Some p -> over_alphabet (merged p).
Proof.
  intros Hall (v & Hin & _)%max_key_Some.
  assert (p ∈ keys (pair_freqs t)) as Hp.
  { apply list_elem_of_fmap. by exists (p, v). }
  apply pair_freqs_keys in Hp as (token & freq & Htok & Hp).
  assert (over_alphabet (squeeze token)) as Hsq.
  { rewrite Forall_forall in Hall. apply Hall.
    apply list_elem_of_fmap. exists token. split; [done |].
    apply list_elem_of_fmap. by exists (token, freq). }
  destruct p as [a b]. apply adjacent_elem_of in Hp as [Ha Hb].
  apply over_alphabet_app.
  split; eapply split_go_over_alphabet; eauto; apply over_alphabet_nil.
Qed.

Lemma rekey_keys (f : string -> string) (items acc : dict string)
    (k : string) :
  k ∈ keys (rekey f items acc) -> k ∈ keys acc \/ k ∈ f <$> keys items.
Proof.
  revert acc. induction items as [|[k0 v0] items IH]; intros acc; csimpl.
  - by left.
  - intros [[-> | ?]%elem_of_keys_dict_set | ?]%IH.
    + right. left.
    + by left.
    + right. by right.
Qed.

Lemma rekey_over_alphabet (f : string -> string) (items : dict string) :
  (forall s, squeeze (f s) = squeeze s) ->
  Forall over_alphabet (squeeze <$> keys items) ->
  Forall over_alphabet (squeeze <$> keys (rekey f items [])).
Proof.
  intros Hf. rewrite !Forall_forall. intros Hall x Hx.
  apply list_elem_of_fmap in Hx as (k & -> & Hk).
  apply rekey_keys in Hk as [[]%elem_of_nil | Hk].
  apply list_elem_of_fmap in Hk as (k' & -> & Hk').
  rewrite Hf. apply Hall. apply list_elem_of_fmap. by exists k'.
Qed.

Lemma train_loop_over_alphabet (n : nat) (st st' : training) :
  Forall over_alphabet (squeeze <$> keys (tr_token_freqs st)) ->
  Forall over_alphabet (merged <$> tr_merges st) ->
  train_loop n st = Some st' ->
  Forall over_alphabet (merged <$> tr_merges st').
Proof.
  revert st. induction n as [|n IH]; intros st Hkeys Hm Hrun.
  - by injection Hrun as <-.
  - rewrite train_loop_S in Hrun.
    destruct (get_max_freq_pair (tr_token_freqs st)) as [p|] eqn:Hp; [| done].
    apply IH in Hrun; [done | |].
    + simpl. rewrite merge_loop_rekey.
      apply rekey_over_alphabet; [apply squeeze_replace | done].
    + simpl. rewrite fmap_app, Forall_app. split; [done |].
      repeat constructor.
      by apply (get_max_freq_pair_over_alphabet (tr_token_freqs st)).
Qed.

Lemma over_alphabet_not_initial (sym : string) :
  over_alphabet sym -> (2 <= String.length sym)%nat -> sym ∉ symbols0.
Proof.
  intros Hal Hlen Hin.
  assert (Forall (fun s => String.length s = 1%nat \/ s = "[UNK]") symbols0)
    as Hinit by (repeat constructor; by left).
  rewrite Forall_forall in Hinit. destruct (Hinit _ Hin) as [? | ->]; [lia |].
  revert Hal. compute_done.
Qed.

Lemma init_token_freqs_over_alphabet (raw : dict string) :
  Forall over_alphabet (keys raw) ->
  Forall over_alphabet (squeeze <$> keys (init_token_freqs raw)).
Proof.
  intros Hraw. unfold init_token_freqs. rewrite init_loop_rekey.
  apply rekey_over_alphabet; [apply squeeze_join_chars |].
  rewrite no_blank_squeeze_keys; [done |].
  eapply Forall_impl; [done | apply over_alphabet_no_blank].
Qed.

(** C4, as stated, fails: [symbols.append] does not look at the list. On
    a corpus whose only word is ["[UNK]"] the fourth merge joins ["[UNK"]
    and ["]"], and the vocabulary holds ["[UNK]"] twice. On a corpus
    whose only word is ["a b"] the key has three blanks between its two
    symbols, no merge changes it, and every iteration appends ["ab"]. *)
Lemma vocabulary_repeats_unknown_marker :
  (train 4 unk_corpus =
     Some (Training [("[UNK]", 1)]
                    (symbols0 ++ ["[U"; "[UN"; "[UNK"; "[UNK]"])
                    [("[", "U"); ("[U", "N"); ("[UN", "K"); ("[UNK", "]")]) /\
   ~ NoDup (symbols0 ++ ["[U"; "[UN"; "[UNK"; "[UNK]"])) /\
  (train 2 blank_corpus =
     Some (Training [("a   b", 1)] (symbols0 ++ ["ab"; "ab"])
                    [("a", "b"); ("a", "b")]) /\
   ~ NoDup (symbols0 ++ ["ab"; "ab"])).
Proof.
  split; (split; [vm_compute; reflexivity | compute_done]).
Qed.

(** ** Slices *)

Lemma substring_stake_sdrop (n m : nat) (s : string) :
  String.substring n m s = stake m (sdrop n s).
Proof.
  revert n m. induction s as [|c s IH]; intros [|n] [|m]; simpl;
    rewrite ?IH; done.
Qed.

Lemma stake_sdrop (k : nat) (s : string) : stake k s +:+ sdrop k s = s.
Proof.
  revert s. induction k as [|k IH]; intros [|c s]; simpl; try done.
  by rewrite IH.
Qed.

Lemma slength_stake (k : nat) (s : string) :
  String.length (stake k s) = (k `min` String.length s)%nat.
Proof.
  revert s. induction k as [|k IH]; intros [|c s]; simpl; try done.
  by rewrite IH.
Qed.

Lemma slength_sdrop (k : nat) (s : string) :
  String.length (sdrop k s) = (String.length s - k)%nat.
Proof.
  revert s. induction k as [|k IH]; intros [|c s]; simpl; done.
Qed.

Lemma sdrop_sdrop (a b : nat) (s : string) :
  sdrop a (sdrop b s) = sdrop (b + a) s.
Proof.
  revert s. induction b as [|b IH]; intros s; simpl; [done |].
  destruct s; [by destruct a | apply IH].
Qed.

Lemma slength_0 (s : string) : String.length s = 0%nat <-> s = "".
Proof. by destruct s. Qed.

Lemma stake_app (a b : string) : stake (String.length a) (a +:+ b) = a.
Proof. induction a; simpl; [by destruct b | congruence]. Qed.

Lemma prefix_stake (q s : string) :
  String.prefix q s = true -> q = stake (String.length q) s.
Proof. intros [r ->]%prefix_app. by rewrite stake_app. Qed.

Lemma stake_prefix (k : nat) (s : string) : String.prefix (stake k s) s = true.
Proof. apply prefix_app. exists (sdrop k s). by rewrite stake_sdrop. Qed.

Lemma prefix_length (q s : string) :
  String.prefix q s = true -> (String.length q <= String.length s)%nat.
Proof. intros [r ->]%prefix_app. rewrite slength_app. lia. Qed.

(** A slice inside the token is a prefix of what follows its start. *)
Lemma slice_stake (token : string) (i j : nat) :
  slice token i j = stake (j - i) (sdrop i token).
Proof. apply substring_stake_sdrop. Qed.

Lemma slice_length (token : string) (i j : nat) :
  (i <= j <= String.length token)%nat ->
  String.length (slice token i j) = (j - i)%nat.
Proof. intros ?. rewrite slice_stake, slength_stake, slength_sdrop. lia. Qed.

Lemma prefix_slice (token q : string) (i : nat) :
  String.prefix q (sdrop i token) = true ->
  q = slice token i (i + String.length q) /\
  (i + String.length q <= i `max` String.length token)%nat.
Proof.
  intros Hp. split.
  - rewrite slice_stake. replace (i + String.length q - i)%nat
      with (String.length q) by lia. by apply prefix_stake.
  - apply prefix_length in Hp. rewrite slength_sdrop in Hp. lia.
Qed.

(** ** The loop of the segmentation *)

Lemma seg_while_step (symbols : list string) (token : string)
    (st : seg_state) :
  seg_while symbols token st =
  if seg_guard token st
  then seg_while symbols token (seg_body symbols token st)
  else st.
Proof.
  rewrite seg_while_equation_1. unfold seg_while_unfold_clause_1.
  by destruct (seg_guard token st).
Qed.

Lemma seg_guard_true (token : string) (st : seg_state) :
  seg_guard token st = true <->
  (start st < String.length token)%nat /\ (start st < end_ st)%nat.
Proof.
  unfold seg_guard. by rewrite andb_true_iff, !Nat.ltb_lt.
Qed.

Lemma seg_body_decreases (symbols : list string) (token : string)
    (st : seg_state) :
  seg_guard token st = true ->
  (seg_measure token (seg_body symbols token st) < seg_measure token st)%nat.
Proof.
  intros [H1 H2]%seg_guard_true.
  unfold seg_measure, seg_body. case_bool_decide; simpl; nia.
Qed.

Lemma seg_iter_S (symbols : list string) (token : string) (n : nat)
    (st : seg_state) :
  seg_iter symbols token (S n) st =
  seg_iter symbols token n (seg_body symbols token st).
Proof. unfold seg_iter. apply Nat.iter_succ_r. Qed.

(** The loop exits after a number of iterations that the measure bounds,
    and [seg_while] is the state at that point. *)
Lemma seg_while_exits (symbols : list string) (token : string) (m : nat) :
  forall st, (seg_measure token st <= m)%nat ->
  exists n,
    (n <= seg_measure token st)%nat /\
    (forall k, (k < n)%nat ->
               seg_guard token (seg_iter symbols token k st) = true) /\
    seg_guard token (seg_iter symbols token n st) = false /\
    seg_while symbols token st = seg_iter symbols token n st.
Proof.
  induction m as [|m IH]; intros st Hm.
  - exists 0%nat. rewrite seg_while_step.
    destruct (seg_guard token st) eqn:G.
    + apply (seg_body_decreases symbols) in G. lia.
    + split; [lia |]. split; [intros; lia |]. by split.
  - rewrite seg_while_step. destruct (seg_guard token st) eqn:G.
    + pose proof (seg_body_decreases symbols _ _ G) as Hdec.
      destruct (IH (seg_body symbols token st)) as (n & Hn & Hk & Hex & Hw);
        [lia |].
      exists (S n). rewrite seg_iter_S.
      split; [lia |]. split; [| by split].
      intros [|k] Hlt; [done |]. rewrite seg_iter_S. apply Hk. lia.
    + exists 0%nat. split; [lia |]. split; [intros; lia |]. by split.
Qed.

(** C9: in every iteration of the inner loop either no symbol matches,
    [start] stays and [end] decreases by one, or a symbol matches and
    [start] moves up to [end]; the measure decreases in both cases, so
    from every state the loop exits after finitely many iterations, and
    [segment_BPE] returns one output for every token. *)
Theorem segment_BPE_terminates (symbols : list string) (token : string)
    (st : seg_state) (tokens : list string) :
  (seg_guard token st = true ->
   (seg_measure token (seg_body symbols token st) < seg_measure token st)%nat
   /\ (((slice token (start st) (end_ st) ∉ symbols) /\
        start (seg_body symbols token st) = start st /\
        S (end_ (seg_body symbols token st)) = end_ st)
       \/ ((slice token (start st) (end_ st) ∈ symbols) /\
           (start st < start (seg_body symbols token st))%nat /\
           start (seg_body symbols token st) = end_ st /\
           end_ (seg_body symbols token st) = String.length token))) /\
  (exists n,
     (n <= seg_measure token st)%nat /\
     (forall k, (k < n)%nat ->
                seg_guard token (seg_iter symbols token k st) = true) /\
     seg_guard token (seg_iter symbols token n st) = false /\
     seg_while symbols token st = seg_iter symbols token n st) /\
  length (segment_BPE tokens symbols) = length tokens.
Proof.
  split; [| split].
  - intros G. split; [by apply seg_body_decreases |].
    apply seg_guard_true in G as [H1 H2].
    unfold seg_body. case_bool_decide; simpl; [right | left]; repeat split;
      try done; lia.
  - by apply (seg_while_exits symbols token (seg_measure token st)).
  - unfold segment_BPE. apply length_fmap.
Qed.

Lemma segment_BPE_terminates_witness :
  (seg_measure "tallest_" (seg_body symbols0 "tallest_" (SegState 0 8 []))
   < seg_measure "tallest_" (SegState 0 8 []))%nat /\
  exists n,
    (n <= 80)%nat /\
    seg_guard "tallest_" (seg_iter symbols0 "tallest_" n (SegState 0 8 []))
      = false /\
    seg_while symbols0 "tallest_" (SegState 0 8 []) =
      seg_iter symbols0 "tallest_" n (SegState 0 8 []).
Proof.
  destruct (segment_BPE_terminates symbols0 "tallest_" (SegState 0 8 []) [])
    as (Hstep & (n & Hn & _ & Hg & Hw) & _).
  split.
  - apply Hstep. reflexivity.
  - exists n. split; [| by split].
    etrans; [apply Hn |]. vm_compute. lia.
Defined.

(** ** Greedy longest match *)

Lemma seg_exit_greedy (symbols : list string) (token : string)
    (st : seg_state) :
  seg_guard token st = false ->
  (start st <= end_ st <= String.length token)%nat ->
  (forall j, (end_ st < j <= String.length token)%nat ->
             slice token (start st) j ∉ symbols) ->
  exists r, seg_finish token st = cur_output st ++ r /\
            greedy symbols (sdrop (start st) token) r.
Proof.
  intros G Hb Hno.
  assert (~ ((start st < String.length token)%nat /\
             (start st < end_ st)%nat)) as HG.
  { rewrite <- seg_guard_true. by rewrite G. }
  unfold seg_finish. destruct (Nat.ltb_spec (start st) (String.length token)).
  - exists ["[UNK]"]. split; [done |]. apply greedy_unk.
    + intros E%slength_0. rewrite slength_sdrop in E. lia.
    + intros q Hq Hp. apply prefix_slice in Hp as [Hsl Hle].
      assert (String.length q <> 0%nat) by by rewrite slength_0.
      rewrite Hsl. apply Hno. lia.
  - exists []. split; [by rewrite app_nil_r |].
    replace (sdrop (start st) token) with "".
    + apply greedy_done.
    + symmetry. apply slength_0. rewrite slength_sdrop. lia.
Qed.

Lemma seg_while_greedy (symbols : list string) (token : string) (m : nat) :
  forall st,
    (seg_measure token st <= m)%nat ->
    (start st <= end_ st <= String.length token)%nat ->
    (forall j, (end_ st < j <= String.length token)%nat ->
               slice token (start st) j ∉ symbols) ->
    exists r,
      seg_finish token (seg_while symbols token st) = cur_output st ++ r /\
      greedy symbols (sdrop (start st) token) r.
Proof.
  induction m as [|m IH]; intros st Hm Hb Hno; rewrite seg_while_step;
    destruct (seg_guard token st) eqn:G;
    try (by apply seg_exit_greedy).
  - apply (seg_body_decreases symbols) in G. lia.
  - pose proof (seg_body_decreases symbols _ _ G) as Hdec.
    apply seg_guard_true in G as [G1 G2].
    destruct (IH (seg_body symbols token st)) as (r & Hr & Hgr); [lia | ..].
    + unfold seg_body. case_bool_decide; simpl; lia.
    + unfold seg_body. case_bool_decide as Hin; simpl; intros j Hj; [lia |].
      destruct (decide (j = end_ st)) as [-> | ?]; [done |].
      apply Hno. lia.
    + revert Hr Hgr. unfold seg_body. case_bool_decide as Hin; simpl.
      * intros Hr Hgr.
        exists (slice token (start st) (end_ st) :: r).
        split; [by rewrite Hr, <- app_assoc |].
        assert (String.length (slice token (start st) (end_ st))
                = (end_ st - start st)%nat) as Hlen
          by (apply slice_length; lia).
        apply greedy_match.
        -- split; [| split; [done | split]].
           ++ intros E. rewrite E in Hlen. simpl in Hlen. lia.
           ++ rewrite slice_stake. apply stake_prefix.
           ++ intros q Hp Hq. apply prefix_slice in Hp as [Hsl Hle].
              rewrite Hsl. apply Hno. lia.
        -- rewrite sdrop_sdrop, Hlen.
           by replace (start st + (end_ st - start st))%nat
             with (end_ st) by lia.
      * intros Hr Hgr. by exists r.
Qed.

Lemma segment_token_greedy (symbols : list string) (token : string) :
  greedy symbols token (segment_token symbols token).
Proof.
  destruct (seg_while_greedy symbols token
              (seg_measure token (SegState 0 (String.length token) []))
              (SegState 0 (String.length token) []))
    as (r & Hr & Hgr); simpl; [lia | lia | intros; lia |].
  unfold segment_token. by rewrite Hr.
Qed.

(** The cell of the notebook that segments two unseen words. *)
Example segment_notebook_example :
  segment_BPE ["tallest_"; "fatter_"]
    (symbols0 ++ ["ta"; "tal"; "tall"; "fa"; "fas"; "fast"; "er"; "er_";
                  "tall_"; "fast_"])
  = ["tall e s t _"; "fa t t er_"].
Proof. vm_compute. reflexivity. Qed.

Lemma join_empty_cons (x : string) (l : list string) :
  join "" (x :: l) = x +:+ join "" l.
Proof. destruct l; simpl; [by rewrite sapp_nil_r | done]. Qed.

(** The output of a greedy segmentation is a sequence of symbols that
    spells the text, or a sequence of symbols that spells the text up to
    a rest that no symbol starts, followed by one unknown marker. *)
Lemma greedy_decompose (symbols : list string) (rest : string)
    (out : list string) :
  greedy symbols rest out ->
  exists pieces,
    Forall (fun piece => piece ∈ symbols) pieces /\
    ((out = pieces /\ join "" pieces = rest) \/
     (exists tail, tail <> "" /\ no_match symbols tail /\
                   out = pieces ++ ["[UNK]"] /\
                   rest = join "" pieces +:+ tail)).
Proof.
  induction 1 as [|rest Hne Hno|rest piece out Hm _ IH].
  - exists []. split; [constructor | by left].
  - exists []. split; [constructor |]. right. by exists rest.
  - destruct IH as (pieces & Hall & IH).
    destruct Hm as (_ & Hin & Hp & _).
    assert (rest = piece +:+ sdrop (String.length piece) rest) as Hrest.
    { pose proof (stake_sdrop (String.length piece) rest) as Hsd.
      by rewrite <- (prefix_stake _ _ Hp) in Hsd. }
    exists (piece :: pieces). split; [by constructor |].
    rewrite join_empty_cons.
    destruct IH as [[-> Hj] | (tail & ? & ? & -> & Ht)].
    + left. split; [done |]. by rewrite Hj.
    + right. exists tail. repeat split; try done.
      by rewrite sapp_assoc, <- Ht.
Qed.

(** C5: the segmentation of a token starts with [start = 0],
    [end = len(token)] and an empty output; while [start < len(token)]
    and [start < end], a slice that is a symbol is emitted, [start]
    moves to [end] and [end] returns to the length, and otherwise [end]
    decreases by one; at the exit one ["[UNK]"] is emitted if
    [start < len(token)] and nothing otherwise. The output is thus the
    greedy longest-match segmentation: symbols that spell the whole
    token, or symbols that spell it up to a rest that no symbol starts,
    followed by exactly one ["[UNK]"] for this rest. *)
Theorem segment_token_spec (symbols : list string) (token : string)
    (st : seg_state) :
  segment_token symbols token =
    seg_finish token
      (seg_while symbols token (SegState 0 (String.length token) [])) /\
  (seg_guard token st = true ->
   slice token (start st) (end_ st) ∈ symbols ->
   seg_while symbols token st =
     seg_while symbols token
       (SegState (end_ st) (String.length token)
                 (cur_output st ++ [slice token (start st) (end_ st)]))) /\
  (seg_guard token st = true ->
   slice token (start st) (end_ st) ∉ symbols ->
   seg_while symbols token st =
     seg_while symbols token
       (SegState (start st) (end_ st - 1) (cur_output st))) /\
  (seg_guard token st = false ->
   seg_while symbols token st = st /\
   ((start st < String.length token)%nat ->
    seg_finish token st = cur_output st ++ ["[UNK]"]) /\
   ((String.length token <= start st)%nat ->
    seg_finish token st = cur_output st)) /\
  greedy symbols token (segment_token symbols token) /\
  exists pieces,
    Forall (fun piece => piece ∈ symbols) pieces /\
    ((segment_token symbols token = pieces /\ join "" pieces = token) \/
     (exists tail, tail <> "" /\ no_match symbols tail /\
                   segment_token symbols token = pieces ++ ["[UNK]"] /\
                   token = join "" pieces +:+ tail)).
Proof.
  split; [done |]. split; [| split; [| split; [| split]]].
  - intros G Hin. rewrite seg_while_step, G. unfold seg_body.
    by rewrite bool_decide_eq_true_2.
  - intros G Hin. rewrite seg_while_step, G. unfold seg_body.
    by rewrite bool_decide_eq_false_2.
  - intros G. rewrite seg_while_step, G. split; [done |].
    unfold seg_finish. split; intros Hlt.
    + by apply Nat.ltb_lt in Hlt as ->.
    + by apply Nat.ltb_ge in Hlt as ->.
  - apply segment_token_greedy.
  - apply greedy_decompose, segment_token_greedy.
Qed.

Lemma segment_token_spec_witness :
  seg_while symbols0 "ab" (SegState 0 2 []) =
    seg_while symbols0 "ab" (SegState 0 1 []) /\
  seg_while symbols0 "ab" (SegState 0 1 []) =
    seg_while symbols0 "ab" (SegState 1 2 ["a"]) /\
  seg_while symbols0 "a1" (SegState 1 1 ["a"]) = SegState 1 1 ["a"] /\
  seg_finish "a1" (SegState 1 1 ["a"]) = ["a"; "[UNK]"].
Proof.
  split; [| split].
  - apply (segment_token_spec symbols0 "ab" (SegState 0 2 []));
      [reflexivity | compute_done].
  - apply (segment_token_spec symbols0 "ab" (SegState 0 1 []));
      [reflexivity | compute_done].
  - destruct (segment_token_spec symbols0 "a1" (SegState 1 1 ["a"]))
      as (_ & _ & _ & Hexit & _).
    destruct Hexit as (Hw & Hunk & _); [reflexivity |].
    split; [done |]. apply Hunk. simpl. lia.
Defined.

(** ** Segmentation of words over the alphabet *)

Lemma alphabet_symbols0 (c : string) : c ∈ alphabet -> c ∈ symbols0.
Proof.
  assert (Forall (fun c => c ∈ symbols0) alphabet) as H by compute_done.
  rewrite Forall_forall in H. apply H.
Qed.

Lemma over_alphabet_join (l : list string) (x : string) :
  over_alphabet (join "" l) -> x ∈ l -> over_alphabet x.
Proof.
  unfold over_alphabet. induction l as [|y l IH]; [by intros _ ?%elem_of_nil |].
  rewrite join_empty_cons, chars_app, Forall_app.
  intros [Hy Hl] [-> | Hin]%elem_of_cons; [done | by apply IH].
Qed.

Lemma squeeze_join (l : list string) :
  squeeze (join " " l) = squeeze (join "" l).
Proof.
  induction l as [|x l IH]; [done |].
  rewrite join_empty_cons, squeeze_app, <- IH.
  destruct l as [|y l]; [by simpl; rewrite sapp_nil_r |].
  change (join " " (x :: y :: l)) with (x +:+ " " +:+ join " " (y :: l)).
  by rewrite !squeeze_app.
Qed.

Lemma segment_over_alphabet (symbols : list string) (token : string) :
  (forall c, c ∈ alphabet -> c ∈ symbols) ->
  over_alphabet token ->
  join "" (segment_token symbols token) = token /\
  ("[UNK]" ∉ segment_token symbols token) /\
  squeeze (join " " (segment_token symbols token)) = token.
Proof.
  intros Hsym Htok.
  destruct (greedy_decompose _ _ _ (segment_token_greedy symbols token))
    as (pieces & _ & [[-> Hj] | (tail & Hne & Hno & _ & Ht)]).
  - split; [done |]. split.
    + intros Hin. rewrite <- Hj in Htok.
      apply (over_alphabet_join _ _ Htok) in Hin. revert Hin. compute_done.
    + rewrite squeeze_join, Hj. by apply over_alphabet_no_blank.
  - exfalso. destruct tail as [|c tail]; [done |].
    apply (Hno (String c "")); [done | by apply prefix_app; exists tail |].
    apply Hsym. unfold over_alphabet in Htok.
    rewrite Ht, chars_app, Forall_app in Htok.
    destruct Htok as [_ Htail]. simpl in Htail.
    by apply Forall_cons in Htail as [? _].
Qed.



(** ** Effects on the store *)

Lemma bind_ok {A B} (m : M A) (f : A -> M B) (h h' : store) (a : A) :
  m h = (Ok a, h') -> (m ≫= f) h = f a h'.
Proof. unfold mbind, M_bind. by intros ->. Qed.

Lemma read_table_ok (l : loc) (h : store) (d : dict string) :
  h !! l = Some (OTable d) -> read_table l h = (Ok d, h).
Proof. unfold read_table. by intros ->. Qed.

Lemma table_getitem_ok (l : loc) (h : store) (d : dict string)
    (k : string) (v : Z) :
  h !! l = Some (OTable d) -> dict_get k d = Some v ->
  table_getitem l k h = (Ok v, h).
Proof.
  intros Hl Hk. unfold table_getitem.
  erewrite bind_ok; [| by apply read_table_ok]. by rewrite Hk.
Qed.

Lemma fresh_insert_present (l : loc) (o o' : obj) (h : store) :
  h !! l = Some o -> fresh (dom (<[l := o']> h)) = fresh (dom h).
Proof.
  intros Hl. rewrite dom_insert_L.
  assert (l ∈ dom h) as Hdom by (apply elem_of_dom; by eexists).
  by rewrite (subseteq_union_1_L {[l]} (dom h))
    by by apply singleton_subseteq_l.
Qed.

Lemma fresh_lookup (h : store) : h !! fresh (dom h) = None.
Proof. apply not_elem_of_dom, is_fresh. Qed.

(** The loop of [merge_symbols] writes at [new] only. *)
Lemma merge_loop_st (p : string * string) (token_freqs new : loc)
    (tf : dict string) (items : dict string) :
  new <> token_freqs ->
  (forall token freq, (token, freq) ∈ items ->
                      dict_get token tf = Some freq) ->
  forall (acc : dict string) (h : store),
    h !! token_freqs = Some (OTable tf) ->
    h !! new = Some (OTable acc) ->
    for_each items (fun '(token, _) =>
      let new_token :=
        replace (p.1 +:+ " " +:+ p.2) (p.1 +:+ p.2) token in
      v ← table_getitem token_freqs token;
      table_setitem new new_token v) h =
    (Ok (), <[new := OTable (merge_loop p items acc)]> h).
Proof.
  intros Hne. induction items as [|[token freq] items IH];
    intros Hget acc h Htf Hnew.
  - simpl. unfold mret, M_ret. by rewrite insert_id.
  - cbn [for_each merge_loop].
    erewrite bind_ok; cycle 1.
    { erewrite bind_ok;
        [| eapply table_getitem_ok; [exact Htf | apply Hget; left]].
      unfold table_setitem. by rewrite Hnew. }
    cbv beta. rewrite (IH ltac:(intros; apply Hget; by right)
                 (dict_set (replace (p.1 +:+ " " +:+ p.2) (p.1 +:+ p.2) token)
                           freq acc)).
    + by rewrite insert_insert_eq.
    + by rewrite lookup_insert_ne.
    + by rewrite lookup_insert_eq.
Qed.

Lemma merge_symbols_st_spec (p : string * string) (token_freqs symbols : loc)
    (h : store) (tf : dict string) (syms : list string) :
  h !! token_freqs = Some (OTable tf) ->
  h !! symbols = Some (OList syms) ->
  NoDup (keys tf) ->
  merge_symbols_st p token_freqs symbols h =
  (Ok (fresh (dom h)),
   <[fresh (dom h) := OTable (merge_symbols p tf syms).1]>
     (<[symbols := OList (merge_symbols p tf syms).2]> h)).
Proof.
  intros Htf Hsyms Hnd. unfold merge_symbols_st.
  assert (symbols <> token_freqs) as Hst by (intros ->; congruence).
  assert (fresh (dom h) <> token_freqs) as Hft.
  { intros E. pose proof (fresh_lookup h) as Hf. rewrite E in Hf. congruence. }
  erewrite bind_ok; cycle 1.
  { unfold list_append. by rewrite Hsyms. }
  erewrite bind_ok; [| reflexivity].
  rewrite (fresh_insert_present _ _ _ _ Hsyms).
  erewrite bind_ok; cycle 1.
  { apply read_table_ok. by rewrite lookup_insert_ne, lookup_insert_ne. }
  erewrite bind_ok; cycle 1.
  { apply (merge_loop_st p token_freqs (fresh (dom h)) tf tf Hft) with (acc := []).
    - intros token freq Hin. by apply dict_get_item.
    - by rewrite lookup_insert_ne, lookup_insert_ne.
    - by rewrite lookup_insert_eq. }
  unfold mret, M_ret. by rewrite insert_insert_eq.
Qed.

(** The loops of [get_max_freq_pair] write at [pairs] only. *)
Lemma count_token_st (pairs : loc) (freq : Z) (ps : list (string * string)) :
  forall (d : dict (string * string)) (h : store),
    h !! pairs = Some (OPairs d) ->
    for_each ps (fun p => pairs_additem pairs p freq) h =
    (Ok (), <[pairs := OPairs (foldl (fun acc p => dict_add p freq acc) d ps)]> h).
Proof.
  induction ps as [|p ps IH]; intros d h Hp.
  - simpl. unfold mret, M_ret. by rewrite insert_id.
  - cbn [for_each foldl].
    erewrite bind_ok; cycle 1.
    { unfold pairs_additem. by rewrite Hp. }
    rewrite (IH (dict_add p freq d)) by by rewrite lookup_insert_eq.
    by rewrite insert_insert_eq.
Qed.

Lemma pair_freqs_st (pairs : loc) (items : dict string) :
  forall (d : dict (string * string)) (h : store),
    h !! pairs = Some (OPairs d) ->
    for_each items (fun '(token, freq) =>
      for_each (adjacent (split token)) (fun p =>
        pairs_additem pairs p freq)) h =
    (Ok (), <[pairs := OPairs (pair_freqs_from d items)]> h).
Proof.
  induction items as [|[token freq] items IH]; intros d h Hp.
  - simpl. unfold mret, M_ret. by rewrite insert_id.
  - cbn [for_each]. unfold pair_freqs_from. cbn [foldl].
    erewrite bind_ok; [| by apply count_token_st].
    rewrite (IH (count_token token freq d)) by by rewrite lookup_insert_eq.
    by rewrite insert_insert_eq.
Qed.

Lemma get_max_freq_pair_st_spec (token_freqs : loc) (h : store)
    (tf : dict string) :
  h !! token_freqs = Some (OTable tf) ->
  get_max_freq_pair_st token_freqs h =
  (match get_max_freq_pair tf with
   | Some p => Ok p
   | None => Raise ValueError
   end,
   <[fresh (dom h) := OPairs (pair_freqs tf)]> h).
Proof.
  intros Htf. unfold get_max_freq_pair_st.
  assert (fresh (dom h) <> token_freqs) as Hft.
  { intros E. pose proof (fresh_lookup h) as Hf. rewrite E in Hf. congruence. }
  erewrite bind_ok; [| reflexivity].
  erewrite bind_ok; cycle 1.
  { apply read_table_ok. by rewrite lookup_insert_ne. }
  erewrite bind_ok; cycle 1.
  { apply pair_freqs_st with (d := []). by rewrite lookup_insert_eq. }
  rewrite insert_insert_eq.
  erewrite bind_ok; cycle 1.
  { unfold read_pairs. by rewrite lookup_insert_eq. }
  unfold get_max_freq_pair, pair_freqs.
  by destruct (max_key (pair_freqs_from [] tf)).
Qed.

(** C10: [merge_symbols] changes the list [symbols], to which it appends
    the concatenation of the pair, and nothing else that exists at the
    call: its result is a table at a new location and the table it
    received is as before; [get_max_freq_pair] changes nothing that
    exists at the call. *)
Theorem merge_symbols_frame (p : string * string) (token_freqs symbols : loc)
    (h : store) (tf : dict string) (syms : list string) :
  h !! token_freqs = Some (OTable tf) ->
  h !! symbols = Some (OList syms) ->
  NoDup (keys tf) ->
  (exists new h',
     merge_symbols_st p token_freqs symbols h = (Ok new, h') /\
     h !! new = None /\
     h' !! new = Some (OTable (merge_symbols p tf syms).1) /\
     h' !! symbols = Some (OList (syms ++ [p.1 +:+ p.2])) /\
     h' !! token_freqs = Some (OTable tf) /\
     forall l, l <> symbols -> l <> new -> h' !! l = h !! l) /\
  (exists r pairs h',
     get_max_freq_pair_st token_freqs h = (r, h') /\
     r = match get_max_freq_pair tf with
         | Some p => Ok p
         | None => Raise ValueError
         end /\
     h !! pairs = None /\
     h' !! token_freqs = Some (OTable tf) /\
     forall l, l <> pairs -> h' !! l = h !! l).
Proof.
  intros Htf Hsyms Hnd.
  pose proof (fresh_lookup h) as Hfresh.
  assert (fresh (dom h) <> token_freqs) as Hft by (intros E; congruence).
  assert (fresh (dom h) <> symbols) as Hfs by (intros E; congruence).
  assert (symbols <> token_freqs) as Hst by (intros ->; congruence).
  split.
  - eexists _, _. split; [by apply merge_symbols_st_spec |].
    split; [done |]. split; [by rewrite lookup_insert_eq |].
    split; [by rewrite lookup_insert_ne, lookup_insert_eq |].
    split; [by rewrite !lookup_insert_ne |].
    intros l ? ?. by rewrite !lookup_insert_ne.
  - eexists _, _, _. split; [by apply get_max_freq_pair_st_spec |].
    split; [done |]. split; [done |].
    split; [by rewrite lookup_insert_ne |].
    intros l ?. by rewrite lookup_insert_ne.
Qed.

Lemma merge_symbols_frame_witness :
  exists new h',
    merge_symbols_st ("t", "a") 1%positive 2%positive notebook_store
      = (Ok new, h') /\
    notebook_store !! new = None /\
    h' !! 2%positive = Some (OList (symbols0 ++ ["ta"])) /\
    h' !! 1%positive = Some (OTable (init_token_freqs raw_token_freqs)).
Proof.
  destruct (merge_symbols_frame ("t", "a") 1%positive 2%positive
              notebook_store (init_token_freqs raw_token_freqs) symbols0)
    as [(new & h' & Hrun & Hnew & _ & Hs & Ht & _) _].
  - reflexivity.
  - reflexivity.
  - compute_done.
  - by exists new, h'.
Defined.

(** * Further properties *)

(** ** The construction of [token_freqs] *)

Lemma join_chars_cons (c : ascii) (w : string) :
  join " " (chars (String c w)) =
  String c (match w with
            | EmptyString => ""
            | String _ _ => String " " (join " " (chars w))
            end).
Proof. by destruct w. Qed.

Lemma join_chars_inj (w1 w2 : string) :
  join " " (chars w1) = join " " (chars w2) -> w1 = w2.
Proof.
  revert w2. induction w1 as [|c1 w1 IH]; intros [|c2 w2].
  - done.
  - rewrite join_chars_cons. done.
  - rewrite join_chars_cons. done.
  - rewrite !join_chars_cons. intros [= -> E]. f_equal. apply IH.
    destruct w1, w2; try done. by injection E.
Qed.

Lemma init_token_freqs_items (raw : dict string) :
  NoDup (keys raw) ->
  init_token_freqs raw = prod_map (fun w => join " " (chars w)) id <$> raw.
Proof.
  intros Hnd. unfold init_token_freqs.
  rewrite init_loop_rekey, rekey_fresh; [done |]. simpl.
  apply NoDup_fmap_2; [| done]. intros w1 w2. apply join_chars_inj.
Qed.

Lemma no_space_no_blank (s : string) : no_space s = true -> no_blank s.
Proof.
  unfold no_blank. induction s as [|c s IH]; simpl; [done |].
  intros [Hc Hs]%andb_prop. destruct (Ascii.eqb_spec c " ") as [-> | _].
  - done.
  - by rewrite IH.
Qed.

Lemma split_go_spaced_chars (w cur : string) :
  no_space w = true -> cur <> "" ->
  split_go cur (match w with
                | EmptyString => ""
                | String _ _ => String " " (join " " (chars w))
                end)
  = cur :: chars w.
Proof.
  revert cur. induction w as [|c w IH]; intros cur Hw Hcur.
  - simpl. by rewrite decide_False.
  - simpl in Hw. apply andb_prop in Hw as [Hc Hw].
    apply negb_true_iff in Hc.
    rewrite join_chars_cons.
    change (split_go cur (String " " (String c ?x)))
      with (if decide (cur = "") then split_go "" (String c x)
            else cur :: split_go "" (String c x)).
    rewrite decide_False by done. f_equal.
    cbn [split_go chars]. rewrite Hc. by apply IH.
Qed.

Lemma split_join_chars (w : string) :
  no_space w = true -> split (join " " (chars w)) = chars w.
Proof.
  destruct w as [|c w]; [done |]. intros Hw.
  simpl in Hw. apply andb_prop in Hw as [Hc Hw]. apply negb_true_iff in Hc.
  rewrite join_chars_cons. unfold split. cbn [split_go chars]. rewrite Hc.
  by apply split_go_spaced_chars.
Qed.

(** X1: the table built from [raw_token_freqs] loses nothing: it has one
    item for every raw word, in the same order and with the same
    frequency, and for a word without white space the symbols of the key
    are the characters of the word and the key without its delimiters is
    the word. *)
Theorem init_token_freqs_lossless (raw : dict string) :
  NoDup (keys raw) ->
  Forall2 (fun rw tf =>
             tf.1 = join " " (chars rw.1) /\ tf.2 = rw.2 /\
             (no_space rw.1 = true ->
              split tf.1 = chars rw.1 /\ squeeze tf.1 = rw.1))
          raw (init_token_freqs raw).
Proof.
  intros Hnd. rewrite init_token_freqs_items by done.
  apply Forall2_fmap_r, Forall_Forall2_diag, Forall_forall.
  intros [w f] _. simpl. split; [done |]. split; [done |].
  intros Hw. split; [by apply split_join_chars |].
  rewrite squeeze_join_chars. by apply no_space_no_blank.
Qed.

Lemma init_token_freqs_lossless_witness :
  Forall2 (fun rw tf =>
             tf.1 = join " " (chars rw.1) /\ tf.2 = rw.2 /\
             (no_space rw.1 = true ->
              split tf.1 = chars rw.1 /\ squeeze tf.1 = rw.1))
          raw_token_freqs (init_token_freqs raw_token_freqs).
Proof. apply init_token_freqs_lossless. compute_done. Defined.

(** ** The order of [pairs] and the choice among equal totals *)

Section FirstMax.
Context {K : Type} `{EqDecision K}.
Implicit Types (d : dict K) (k : K) (v : Z).

(** [max_from] returns the first of the items with the largest value:
    the items before it have a smaller value. *)
Lemma max_from_first (best : K * Z) d :
  exists d1 d2,
    best :: d = d1 ++ max_from best d :: d2 /\
    Forall (fun kv => kv.2 < (max_from best d).2) d1 /\
    Forall (fun kv => kv.2 <= (max_from best d).2) d2.
Proof.
  revert best. induction d as [|[k v] d IH]; intros best.
  - exists [], []. by repeat split.
  - simpl. destruct (IH (if best.2 <? v then (k, v) else best))
      as (d1 & d2 & Heq & H1 & H2).
    destruct (max_from_spec (if best.2 <? v then (k, v) else best) d)
      as [_ Hmax].
    destruct (Z.ltb_spec best.2 v) as [Hlt | Hge].
    + exists (best :: d1), d2. split; [by rewrite Heq |]. split; [| done].
      constructor; [| done].
      pose proof (Hmax (k, v) ltac:(left)). simpl in *. lia.
    + destruct d1 as [|x d1].
      * simpl in Heq. injection Heq as Hb Hd.
        exists [], ((k, v) :: d2). rewrite <- Hb, <- Hd.
        split; [done |]. split; [done |].
        constructor; [simpl; lia | by rewrite Hd, Hb].
      * simpl in Heq. injection Heq as -> Hd.
        apply Forall_cons in H1 as [Hx H1].
        exists (x :: (k, v) :: d1), d2.
        split; [simpl; by rewrite <- Hd |]. split; [| done].
        constructor; [done |]. constructor; [simpl; lia | done].
Qed.

Lemma keys_foldl_dict_add (f : Z) (ps : list K) d :
  keys (foldl (fun acc p => dict_add p f acc) d ps)
  = keys d ++ first_seen (keys d) ps.
Proof.
  revert d. induction ps as [|p ps IH]; intros d; simpl.
  - by rewrite app_nil_r.
  - rewrite IH. unfold dict_add at 1 2. rewrite keys_dict_set.
    destruct (decide (p ∈ keys d)); [done |]. by rewrite <- app_assoc.
Qed.

Lemma first_seen_app (seen l1 l2 : list K) :
  first_seen seen (l1 ++ l2)
  = first_seen seen l1 ++ first_seen (seen ++ first_seen seen l1) l2.
Proof.
  revert seen. induction l1 as [|x l1 IH]; intros seen; simpl.
  - by rewrite app_nil_r.
  - destruct (decide (x ∈ seen)); [apply IH |].
    rewrite IH. simpl. by rewrite <- app_assoc.
Qed.
End FirstMax.

Lemma keys_pair_freqs_from (d : dict (string * string)) (t : dict string) :
  keys (pair_freqs_from d t) = keys d ++ first_seen (keys d) (scanned_pairs t).
Proof.
  unfold pair_freqs_from, scanned_pairs. revert d.
  induction t as [|[token freq] t IH]; intros d; csimpl.
  - by rewrite app_nil_r.
  - rewrite IH. unfold count_token. rewrite keys_foldl_dict_add.
    by rewrite first_seen_app, <- app_assoc.
Qed.

(** X2: [pairs] holds the pairs in the order in which the scan of the
    keys first meets them, and among the pairs with the largest total
    [get_max_freq_pair] returns the one met first: every pair before it
    has a smaller total, no pair after it a larger one. *)
Theorem get_max_freq_pair_first (t : dict string) (p : string * string) :
  get_max_freq_pair t = Some p ->
  keys (pair_freqs t) = first_seen [] (scanned_pairs t) /\
  exists d1 v d2,
    pair_freqs t = d1 ++ (p, v) :: d2 /\
    Forall (fun kv => kv.2 < v) d1 /\
    Forall (fun kv => kv.2 <= v) d2.
Proof.
  intros Hp. split; [apply (keys_pair_freqs_from [] t) |].
  unfold get_max_freq_pair in Hp.
  destruct (pair_freqs t) as [|kv d]; [done |].
  simpl in Hp. injection Hp as <-.
  destruct (max_from_first kv d) as (d1 & d2 & Heq & H1 & H2).
  exists d1, (max_from kv d).2, d2.
  by destruct (max_from kv d).
Qed.

Lemma get_max_freq_pair_first_witness :
  exists d1 v d2,
    pair_freqs (init_token_freqs raw_token_freqs) = d1 ++ (("t", "a"), v) :: d2
    /\ Forall (fun kv => kv.2 < v) d1 /\ Forall (fun kv => kv.2 <= v) d2.
Proof.
  apply (get_max_freq_pair_first (init_token_freqs raw_token_freqs) ("t", "a")).
  reflexivity.
Defined.

(** ** The symbols of the selected pair *)

Lemma no_space_app (a b : string) :
  no_space (a +:+ b) = (no_space a && no_space b).
Proof.
  induction a as [|c a IH]; simpl; [done |]. by rewrite IH, andb_assoc.
Qed.

Lemma split_go_no_space (s cur : string) :
  no_space cur = true ->
  Forall (fun sym => no_space sym = true) (split_go cur s).
Proof.
  revert cur. induction s as [|c s IH]; intros cur Hcur; simpl.
  - destruct (decide (cur = "")); by repeat constructor.
  - destruct (is_space c) eqn:Hc.
    + destruct (decide (cur = "")); [by apply IH |].
      constructor; [done | by apply IH].
    + apply IH. rewrite no_space_app, Hcur. simpl. by rewrite Hc.
Qed.

(** X3: the pair that [get_max_freq_pair] returns is a pair of symbols
    that are adjacent in one key of the table; both symbols are
    non-empty and hold no white space. *)
Theorem get_max_freq_pair_symbols (t : dict string) (p : string * string) :
  get_max_freq_pair t = Some p ->
  (exists token freq, (token, freq) ∈ t /\ p ∈ adjacent (split token)) /\
  p.1 <> "" /\ p.2 <> "" /\ no_space p.1 = true /\ no_space p.2 = true.
Proof.
  intros Hp. destruct (get_max_freq_pair_nonempty _ _ Hp) as [H1 H2].
  apply max_key_Some in Hp as (v & Hin & _).
  assert (p ∈ keys (pair_freqs t)) as Hk.
  { apply list_elem_of_fmap. by exists (p, v). }
  apply pair_freqs_keys in Hk as (token & freq & Htok & Hadj).
  split; [by exists token, freq |]. split; [done |]. split; [done |].
  destruct p as [a b]. apply adjacent_elem_of in Hadj as [Ha Hb].
  pose proof (split_go_no_space token "" eq_refl) as Hall.
  rewrite Forall_forall in Hall. split; by apply Hall.
Qed.

Lemma get_max_freq_pair_symbols_witness :
  no_space "t" = true /\ no_space "a" = true.
Proof.
  destruct (get_max_freq_pair_symbols (init_token_freqs raw_token_freqs)
              ("t", "a")) as (_ & _ & _ & H1 & H2); [reflexivity |].
  by split.
Defined.

(** ** The segmentation as a function of the vocabulary *)

Lemma prefix_same_length (p q s : string) :
  String.prefix p s = true -> String.prefix q s = true ->
  String.length p = String.length q -> p = q.
Proof.
  intros Hp%prefix_stake Hq%prefix_stake Hlen.
  rewrite Hp, Hq. by rewrite Hlen.
Qed.

Lemma longest_match_unique (symbols : list string) (rest p q : string) :
  longest_match symbols rest p -> longest_match symbols rest q -> p = q.
Proof.
  intros (_ & Hp1 & Hp2 & Hp3) (_ & Hq1 & Hq2 & Hq3).
  apply (prefix_same_length p q rest); [done | done |].
  destruct (Nat.lt_trichotomy (String.length p) (String.length q))
    as [Hlt | [Heq | Hgt]]; [| done |].
  - by destruct (Hp3 q Hq2 Hlt).
  - by destruct (Hq3 p Hp2 Hgt).
Qed.

Lemma greedy_unique (symbols : list string) (rest : string)
    (out1 out2 : list string) :
  greedy symbols rest out1 -> greedy symbols rest out2 -> out1 = out2.
Proof.
  intros H1. revert out2.
  induction H1 as [|rest Hne Hno|rest piece out Hm _ IH]; intros out2 H2.
  - inversion H2 as [|? Hne|? piece ? Hm]; subst; [done | done |].
    destruct Hm as (Hne & _ & Hp & _). by destruct piece.
  - inversion H2 as [|? ? ?|? piece ? Hm]; subst; [done | done |].
    destruct Hm as (Hp1 & Hp2 & Hp3 & _). by destruct (Hno piece).
  - inversion H2 as [|? ? Hno|? piece' out' Hm' Hg']; subst.
    + destruct Hm as (Hne & _ & Hp & _). by destruct piece.
    + destruct Hm as (Hp1 & Hp2 & Hp3 & _). by destruct (Hno piece).
    + assert (piece = piece') as <- by by eapply longest_match_unique.
      f_equal. by apply IH.
Qed.

(** X4: [segment_BPE] computes the greedy longest-match segmentation and
    nothing else: a list of symbols is the output for a token exactly
    when it is the greedy segmentation of the token. *)
Theorem segment_token_greedy_iff (symbols : list string) (token : string)
    (out : list string) :
  greedy symbols token out <-> out = segment_token symbols token.
Proof.
  split.
  - intros H. eapply greedy_unique; [done | apply segment_token_greedy].
  - intros ->. apply segment_token_greedy.
Qed.

(** X5: a token that is a symbol of the vocabulary is not split, and the
    empty token gives an empty output. *)
Theorem segment_BPE_symbol (symbols : list string) (token : string) :
  (token ∈ symbols -> token <> "" -> segment_BPE [token] symbols = [token]) /\
  segment_BPE [""] symbols = [""] /\
  segment_BPE [] symbols = [].
Proof.
  split; [| split; [| done]].
  - intros Hin Hne.
    change (segment_BPE [token] symbols)
      with [join " " (segment_token symbols token)].
    replace (segment_token symbols token) with [token]; [done |].
    eapply greedy_unique; [| apply segment_token_greedy].
    apply greedy_match.
    + split; [done |]. split; [done |].
      split; [apply prefix_app; exists ""; by rewrite sapp_nil_r |].
      intros q Hq%prefix_length Hlt. lia.
    + replace (sdrop (String.length token) token) with "";
        [apply greedy_done |].
      symmetry. apply slength_0. rewrite slength_sdrop. lia.
  - reflexivity.
Qed.

Lemma segment_BPE_symbol_witness :
  segment_BPE ["tall_"] (symbols0 ++ ["ta"; "tal"; "tall"; "tall_"])
  = ["tall_"].
Proof.
  destruct (segment_BPE_symbol (symbols0 ++ ["ta"; "tal"; "tall"; "tall_"])
              "tall_") as [H _].
  apply H; [compute_done | done].
Defined.

(** X6: a non-empty token of which no prefix is a symbol gives the
    unknown marker alone, whatever follows its first character; so does
    every non-empty token when the vocabulary is empty. *)
Theorem segment_BPE_unknown (symbols : list string) (token : string) :
  (token <> "" -> no_match symbols token ->
   segment_BPE [token] symbols = ["[UNK]"]) /\
  (token <> "" -> segment_BPE [token] [] = ["[UNK]"]).
Proof.
  assert (forall syms, token <> "" -> no_match syms token ->
                       segment_BPE [token] syms = ["[UNK]"]) as H.
  { intros syms Hne Hno.
    change (segment_BPE [token] syms)
      with [join " " (segment_token syms token)].
    replace (segment_token syms token) with ["[UNK]"]; [done |].
    eapply greedy_unique; [| apply segment_token_greedy].
    by apply greedy_unk. }
  split; [apply H |]. intros Hne. apply H; [done |].
  intros q _ _. apply not_elem_of_nil.
Qed.

Lemma segment_BPE_unknown_witness :
  segment_BPE ["4ever_"] symbols0 = ["[UNK]"].
Proof.
  destruct (segment_BPE_unknown symbols0 "4ever_") as [H _].
  apply H; [done |]. clear H.
  intros q Hq Hp Hin. destruct q as [|c q]; [done |].
  simpl in Hp. destruct (ascii_dec c "4") as [-> | ?]; [| done].
  unfold symbols0 in Hin.
  repeat (apply elem_of_cons in Hin as [[=] | Hin]).
  by apply elem_of_nil in Hin.
Defined.

Lemma greedy_same_members (symbols symbols' : list string) (rest : string)
    (out : list string) :
  (forall s, s ∈ symbols <-> s ∈ symbols') ->
  greedy symbols rest out -> greedy symbols' rest out.
Proof.
  intros Heq. induction 1 as [|rest Hne Hno|rest piece out Hm _ IH].
  - apply greedy_done.
  - apply greedy_unk; [done |]. intros q Hq Hp. rewrite <- Heq. by apply Hno.
  - apply greedy_match; [| done].
    destruct Hm as (H1 & H2 & H3 & H4).
    split; [done |]. split; [by apply Heq |]. split; [done |].
    intros q Hq Hlt. rewrite <- Heq. by apply H4.
Qed.

(** X7: the output of [segment_BPE] depends on the vocabulary only
    through membership: two vocabularies with the same symbols, in any
    order and with any repetition, segment every token alike. *)
Theorem segment_BPE_same_members (symbols symbols' tokens : list string) :
  (forall s, s ∈ symbols <-> s ∈ symbols') ->
  segment_BPE tokens symbols = segment_BPE tokens symbols'.
Proof.
  intros Heq. unfold segment_BPE. apply list_fmap_ext. intros _ token _.
  f_equal. apply (greedy_unique symbols' token);
    [| apply segment_token_greedy].
  eapply greedy_same_members; [exact Heq | apply segment_token_greedy].
Qed.

Lemma segment_BPE_same_members_witness :
  segment_BPE ["tallest_"] (symbols0 ++ ["ta"; "tal"; "tall"])
  = segment_BPE ["tallest_"] (["tall"; "tal"; "ta"; "ta"] ++ symbols0).
Proof.
  apply segment_BPE_same_members. intros s.
  rewrite !elem_of_app, !elem_of_cons, !elem_of_nil. tauto.
Defined.

(** X8: with the vocabulary of any completed training run, every token
    over the alphabet, seen in training or not, is segmented into
    symbols that spell it, without any unknown marker. *)
Theorem segment_unseen_words (raw : dict string) (n : nat) (st : training)
    (token : string) :
  train n raw = Some st ->
  over_alphabet token ->
  join "" (segment_token (tr_symbols st) token) = token /\
  ("[UNK]" ∉ segment_token (tr_symbols st) token) /\
  Forall (fun piece => piece ∈ tr_symbols st)
         (segment_token (tr_symbols st) token) /\
  squeeze <$> segment_BPE [token] (tr_symbols st) = [token].
Proof.
  intros Hrun Htok.
  assert (forall c, c ∈ alphabet -> c ∈ tr_symbols st) as Hsym.
  { intros c Hc. apply vocabulary_growth_symbols in Hrun as ->.
    apply elem_of_app. left. by apply alphabet_symbols0. }
  destruct (segment_over_alphabet _ _ Hsym Htok) as (Hj & Hunk & Hsq).
  split; [done |]. split; [done |]. split; [| by csimpl; rewrite Hsq].
  destruct (greedy_decompose _ _ _
              (segment_token_greedy (tr_symbols st) token))
    as (pieces & Hall & [[-> _] | (tail & _ & _ & Hout & _)]); [done |].
  destruct Hunk. rewrite Hout. apply elem_of_app. right. left.
Qed.

Lemma segment_unseen_words_witness :
  exists st,
    train 10 raw_token_freqs = Some st /\
    squeeze <$> segment_BPE ["tallest_"] (tr_symbols st) = ["tallest_"].
Proof.
  destruct (train 10 raw_token_freqs) as [st|] eqn:E; [| by vm_compute in E].
  exists st. split; [done |].
  apply (segment_unseen_words raw_token_freqs 10 st "tallest_" E).
  compute_done.
Defined.

(** ** Runs of the training loop that fail *)

Lemma init_token_freqs_keys (raw : dict string) (k : string) :
  k ∈ keys (init_token_freqs raw) ->
  exists w, w ∈ keys raw /\ k = join " " (chars w).
Proof.
  unfold init_token_freqs. rewrite init_loop_rekey.
  intros [[]%elem_of_nil | Hk]%rekey_keys.
  apply list_elem_of_fmap in Hk as (w & -> & Hw). by exists w.
Qed.

Lemma train_loop_None_S (n : nat) (st : training) :
  train_loop n st = None -> train_loop (S n) st = None.
Proof. intros H. by rewrite train_loop_snoc, H. Qed.

(** X9: the training loop fails, with the error of [get_max_freq_pair],
    as soon as no key has two symbols: at its first iteration when every
    raw word has at most one character (or the corpus is empty); and a
    number of merges that fails keeps failing when it is increased. *)
Theorem train_fails (raw : dict string) (n : nat) :
  (Forall (fun w => (String.length w <= 1)%nat) (keys raw) ->
   train (S n) raw = None) /\
  (train n raw = None -> forall m, (n <= m)%nat -> train m raw = None) /\
  (train (S n) raw = None <->
   train n raw = None \/
   exists st, train n raw = Some st /\
              Forall (fun token => (length (split token) <= 1)%nat)
                     (keys (tr_token_freqs st))).
Proof.
  split; [| split].
  - intros Hraw. unfold train. rewrite train_loop_S. simpl.
    replace (get_max_freq_pair (init_token_freqs raw)) with
      (@None (string * string)); [done |].
    symmetry. apply max_key_None, pair_freqs_nil, Forall_forall.
    intros k (w & Hw & ->)%init_token_freqs_keys.
    rewrite Forall_forall in Hraw. apply Hraw in Hw.
    destruct w as [|c [|c' w]]; simpl in *; [lia | | lia].
    unfold split. simpl. destruct (is_space c); simpl; lia.
  - intros Hn m Hle. induction Hle as [|m _ IH]; [done |].
    by apply train_loop_None_S.
  - unfold train. rewrite train_loop_snoc.
    destruct (train_loop n _) as [st|]; [| by split; [left |]].
    unfold get_max_freq_pair. split.
    + destruct (max_key _) eqn:E; [done |]. intros _. right.
      exists st. split; [done |]. by apply pair_freqs_nil, max_key_None.
    + intros [? | (st' & [= <-] & Hall)]; [done |].
      apply pair_freqs_nil in Hall. by rewrite Hall.
Qed.

Lemma train_fails_witness :
  train 1 [("a", 3); ("", 1); ("b", 2)] = None /\
  train 13 raw_token_freqs = None.
Proof.
  split.
  - destruct (train_fails [("a", 3); ("", 1); ("b", 2)] 0) as (H & _).
    apply H. repeat constructor.
  - destruct (train_fails raw_token_freqs 12) as (_ & _ & H).
    apply H. right.
    destruct (train 12 raw_token_freqs) as [st|] eqn:E;
      [| by vm_compute in E].
    exists st. split; [done |].
    vm_compute in E. injection E as <-. repeat constructor.
Defined.

(** ** The training loop on the store *)

Lemma rekey_NoDup (f : string -> string) (items acc : dict string) :
  NoDup (keys acc) -> NoDup (keys (rekey f items acc)).
Proof.
  revert acc. induction items as [|[k v] items IH]; intros acc Hnd; [done |].
  simpl. apply IH. by apply NoDup_keys_dict_set.
Qed.

Lemma merge_symbols_NoDup (p : string * string) (t : dict string)
    (syms : list string) :
  NoDup (keys (merge_symbols p t syms).1).
Proof. simpl. rewrite merge_loop_rekey. apply rekey_NoDup, NoDup_nil_2. Qed.

Lemma train_st_spec (n : nat) :
  forall (h : store) (token_freqs symbols : loc) (t : dict string)
         (syms : list string) (ms : list (string * string)),
    h !! token_freqs = Some (OTable t) ->
    h !! symbols = Some (OList syms) ->
    NoDup (keys t) ->
    exists r h',
      train_st n token_freqs symbols ms h = (r, h') /\
      (forall l, is_Some (h !! l) -> l <> symbols -> h' !! l = h !! l) /\
      match train_loop n (Training t syms ms) with
      | Some st =>
          exists l, r = Ok (l, tr_merges st) /\
                    h' !! l = Some (OTable (tr_token_freqs st)) /\
                    h' !! symbols = Some (OList (tr_symbols st))
      | None => r = Raise ValueError
      end.
Proof.
  induction n as [|n IH]; intros h token_freqs symbols t syms ms Ht Hs Hnd.
  - exists (Ok (token_freqs, ms)), h. split; [done |]. split; [done |].
    by exists token_freqs.
  - rewrite train_loop_S. cbn [train_st tr_token_freqs].
    unfold mbind, M_bind at 1.
    rewrite (get_max_freq_pair_st_spec _ _ _ Ht).
    pose proof (fresh_lookup h) as Hf1.
    destruct (get_max_freq_pair t) as [p|].
    + set (h1 := <[fresh (dom h) := OPairs (pair_freqs t)]> h).
      assert (h1 !! token_freqs = Some (OTable t)) as Ht1.
      { unfold h1. rewrite lookup_insert_ne; [done | congruence]. }
      assert (h1 !! symbols = Some (OList syms)) as Hs1.
      { unfold h1. rewrite lookup_insert_ne; [done | congruence]. }
      unfold mbind, M_bind at 1.
      rewrite (merge_symbols_st_spec p _ _ _ _ _ Ht1 Hs1 Hnd).
      pose proof (fresh_lookup h1) as Hf2.
      set (h2 := <[fresh (dom h1) := OTable (merge_symbols p t syms).1]>
                   (<[symbols := OList (merge_symbols p t syms).2]> h1)).
      destruct (IH h2 (fresh (dom h1)) symbols (merge_symbols p t syms).1
                  (merge_symbols p t syms).2 (ms ++ [p]))
        as (r & h' & Hrun & Hframe & Hres).
      * unfold h2. by rewrite lookup_insert_eq.
      * unfold h2. rewrite lookup_insert_ne, lookup_insert_eq; [done |].
        congruence.
      * apply merge_symbols_NoDup.
      * exists r, h'. split; [done |]. split; [| done].
        intros l Hl Hne. rewrite Hframe; [| | done].
        -- unfold h2, h1.
           rewrite !lookup_insert_ne; [done | | done |].
           ++ intros <-. rewrite Hf1 in Hl. by destruct Hl.
           ++ intros <-. unfold h1 in Hf2.
              rewrite lookup_insert_ne in Hf2;
                [| intros E; rewrite <- E, Hf1 in Hl; by destruct Hl].
              rewrite Hf2 in Hl. by destruct Hl.
        -- unfold h2, h1.
           rewrite !lookup_insert_ne; [done | | done |].
           ++ intros <-. rewrite Hf1 in Hl. by destruct Hl.
           ++ intros <-. unfold h1 in Hf2.
              rewrite lookup_insert_ne in Hf2;
                [| intros E; rewrite <- E, Hf1 in Hl; by destruct Hl].
              rewrite Hf2 in Hl. by destruct Hl.
    + eexists _, _. split; [done |]. split; [| done].
      intros l Hl _. rewrite lookup_insert_ne; [done |].
      intros <-. rewrite Hf1 in Hl. by destruct Hl.
Qed.

(** X10: the training loop of the notebook, run on the store with
    [token_freqs] rebound at every iteration, gives what the loop on
    values gives: the same error or the same printed pairs, final table
    and vocabulary; the list [symbols] is the only object existing
    before the loop that the loop changes, so the first table is as it
    was. *)
Theorem train_on_store (n : nat) (h : store) (token_freqs symbols : loc)
    (raw : dict string) :
  h !! token_freqs = Some (OTable (init_token_freqs raw)) ->
  h !! symbols = Some (OList symbols0) ->
  exists r h',
    train_st n token_freqs symbols [] h = (r, h') /\
    (forall l, is_Some (h !! l) -> l <> symbols -> h' !! l = h !! l) /\
    h' !! token_freqs = Some (OTable (init_token_freqs raw)) /\
    match train n raw with
    | Some st =>
        exists l, r = Ok (l, tr_merges st) /\
                  h' !! l = Some (OTable (tr_token_freqs st)) /\
                  h' !! symbols = Some (OList (tr_symbols st))
    | None => r = Raise ValueError
    end.
Proof.
  intros Ht Hs.
  destruct (train_st_spec n h token_freqs symbols (init_token_freqs raw)
              symbols0 [] Ht Hs) as (r & h' & Hrun & Hframe & Hres).
  { unfold init_token_freqs. rewrite init_loop_rekey.
    apply rekey_NoDup, NoDup_nil_2. }
  exists r, h'. split; [done |]. split; [done |]. split; [| done].
  rewrite Hframe; [done | by eexists | intros ->; congruence].
Qed.

Lemma train_on_store_witness :
  exists r h',
    train_st 10 1%positive 2%positive [] notebook_store = (r, h') /\
    h' !! 1%positive = Some (OTable (init_token_freqs raw_token_freqs)).
Proof.
  destruct (train_on_store 10 notebook_store 1%positive 2%positive
              raw_token_freqs) as (r & h' & Hrun & _ & Ht & _);
    [reflexivity | reflexivity |].
  exists r, h'. split; [exact Hrun | exact Ht].
Defined.

(** ** What [str.replace] does to a key *)

Lemma replace_go_skip (old new : string) (s : string) (k : nat) :
  replace_go old new k s = replace_go old new 0 (sdrop k s).
Proof.
  revert k. induction s as [|c s IH]; intros [|k]; try done.
  simpl. apply IH.
Qed.

Lemma replace_go_match (old new r : string) :
  old <> "" ->
  replace_go old new 0 (old +:+ r) = new +:+ replace_go old new 0 r.
Proof.
  intros Hne. destruct old as [|c old]; [done |].
  change (String c old +:+ r) with (String c (old +:+ r)).
  cbn [replace_go].
  replace (String.prefix (String c old) (String c (old +:+ r))) with true
    by (symmetry; apply prefix_app; by exists r).
  rewrite replace_go_skip.
  replace (String.length (String c old) - 1)%nat with (String.length old)
    by (simpl; lia).
  by rewrite sdrop_app.
Qed.

Lemma replace_go_nomatch (old new : string) (c : ascii) (s : string) :
  String.prefix old (String c s) = false ->
  replace_go old new 0 (String c s) = String c (replace_go old new 0 s).
Proof. intros H. cbn [replace_go]. by rewrite H. Qed.

(** Induction along the scan of [str.replace]. *)
Lemma replace_go_scan (old new : string) (P : string -> string -> Prop) :
  old <> "" ->
  P "" "" ->
  (forall r, P r (replace_go old new 0 r) ->
             P (old +:+ r) (new +:+ replace_go old new 0 r)) ->
  (forall c s, String.prefix old (String c s) = false ->
               P s (replace_go old new 0 s) ->
               P (String c s) (String c (replace_go old new 0 s))) ->
  forall s, P s (replace_go old new 0 s).
Proof.
  intros Hne Hnil Hmatch Hstep s.
  remember (String.length s) as n eqn:Hn.
  revert s Hn. induction (lt_wf n) as [n _ IH]. intros s ->.
  destruct s as [|c s]; [done |].
  destruct (String.prefix old (String c s)) eqn:Hp.
  - apply prefix_app in Hp as [r Hr]. rewrite Hr.
    rewrite replace_go_match by done. apply Hmatch.
    apply (IH (String.length r)); [| done].
    rewrite Hr, slength_app. destruct old; [done | simpl; lia].
  - rewrite replace_go_nomatch by done. apply Hstep; [done |].
    apply (IH (String.length s)); [simpl; lia | done].
Qed.

Lemma occurs_cons (old : string) (c : ascii) (s : string) :
  occurs old s -> occurs old (String c s).
Proof. intros (pre & post & ->). by exists (String c pre), post. Qed.

Lemma prefix_occurs (old s : string) :
  String.prefix old s = true -> occurs old s.
Proof. intros [r ->]%prefix_app. by exists "", r. Qed.

Lemma replace_go_absent (old new s : string) :
  old <> "" -> ~ occurs old s -> replace_go old new 0 s = s.
Proof.
  intros Hne. induction s as [|c s IH]; intros Hocc; [done |].
  destruct (String.prefix old (String c s)) eqn:Hp.
  - by apply prefix_occurs in Hp.
  - rewrite replace_go_nomatch by done. f_equal. apply IH.
    intros H. by apply Hocc, occurs_cons.
Qed.

Lemma replace_go_length_le (old new s : string) :
  old <> "" -> (String.length new <= String.length old)%nat ->
  (String.length (replace_go old new 0 s) <= String.length s)%nat.
Proof.
  intros Hne Hlen.
  apply (replace_go_scan old new
           (fun s s' => (String.length s' <= String.length s)%nat));
    [done | done | |].
  - intros r Hr. rewrite !slength_app. lia.
  - intros c s0 _ Hs. simpl. lia.
Qed.

Lemma replace_go_length_lt (old new s : string) :
  old <> "" -> (String.length new < String.length old)%nat ->
  occurs old s ->
  (String.length (replace_go old new 0 s) < String.length s)%nat.
Proof.
  intros Hne Hlen (pre & post & ->).
  assert (forall r,
    (String.length (replace_go old new 0 (old +:+ r))
     < String.length (old +:+ r))%nat) as Hhit.
  { intros r. rewrite replace_go_match by done. rewrite !slength_app.
    pose proof (replace_go_length_le old new r Hne ltac:(lia)). lia. }
  induction pre as [|c pre IH]; [apply Hhit |].
  change (String c pre +:+ old +:+ post)
    with (String c (pre +:+ old +:+ post)).
  destruct (String.prefix old (String c (pre +:+ old +:+ post))) eqn:Hp.
  - apply prefix_app in Hp as [r ->]. apply Hhit.
  - rewrite replace_go_nomatch by done. simpl. lia.
Qed.

Lemma blank_deleted_refl (s : string) : blank_deleted s s.
Proof. induction s; by constructor. Qed.

Lemma blank_deleted_app (a a' b b' : string) :
  blank_deleted a a' -> blank_deleted b b' ->
  blank_deleted (a +:+ b) (a' +:+ b').
Proof.
  induction 1; intros Hb; simpl;
    [done | apply bd_keep; auto | apply bd_drop; auto].
Qed.

Lemma blank_deleted_squeeze (s s' : string) :
  blank_deleted s s' -> squeeze s' = squeeze s.
Proof.
  induction 1 as [|c s s' _ IH|s s' _ IH]; simpl; [done | | done].
  by rewrite IH.
Qed.

Lemma blank_deleted_merge_key (p : string * string) (key : string) :
  blank_deleted key (merge_key p key).
Proof.
  unfold merge_key, replace. destruct (joined p) eqn:E.
  { unfold joined in E. by destruct (p.1). }
  rewrite <- E.
  apply (replace_go_scan (joined p) (merged p) blank_deleted).
  - by rewrite E.
  - constructor.
  - intros r Hr. apply blank_deleted_app; [| done].
    unfold joined, merged.
    apply blank_deleted_app; [apply blank_deleted_refl |].
    apply bd_drop, blank_deleted_refl.
  - intros c s0 _ Hs. by constructor.
Qed.

Lemma joined_nonempty (p : string * string) : joined p <> "".
Proof. unfold joined. by destruct (p.1). Qed.

Lemma joined_length (p : string * string) :
  String.length (joined p) = S (String.length (merged p)).
Proof. unfold joined, merged. rewrite !slength_app. simpl. lia. Qed.

Lemma merge_key_replace_go (p : string * string) (key : string) :
  merge_key p key = replace_go (joined p) (merged p) 0 key.
Proof.
  pose proof (joined_nonempty p).
  unfold merge_key, replace. by destruct (joined p).
Qed.

Lemma merge_key_length (p : string * string) (key : string) :
  (String.length (merge_key p key) <= String.length key)%nat.
Proof.
  rewrite merge_key_replace_go.
  apply replace_go_length_le; [apply joined_nonempty |].
  rewrite joined_length. lia.
Qed.

Lemma merge_key_shorter (p : string * string) (key : string) :
  occurs (joined p) key ->
  (String.length (merge_key p key) < String.length key)%nat.
Proof.
  rewrite merge_key_replace_go.
  apply replace_go_length_lt; [apply joined_nonempty |].
  rewrite joined_length. lia.
Qed.

(** X11: [merge_symbols] changes a key only by deleting delimiters: the
    new key has the other characters of the old one in the same order;
    it is strictly shorter when the text of the pair with its delimiter
    is a part of the key, and it is the key itself when it is not. *)
Theorem merge_key_spec (p : string * string) (key : string) :
  blank_deleted key (merge_key p key) /\
  squeeze (merge_key p key) = squeeze key /\
  (String.length (merge_key p key) <= String.length key)%nat /\
  (occurs (joined p) key ->
   (String.length (merge_key p key) < String.length key)%nat) /\
  (~ occurs (joined p) key -> merge_key p key = key).
Proof.
  assert (joined p <> "") as Hne.
  { unfold joined. by destruct (p.1). }
  assert (String.length (joined p) = S (String.length (merged p))) as Hlen.
  { unfold joined, merged. rewrite !slength_app. simpl. lia. }
  assert (merge_key p key = replace_go (joined p) (merged p) 0 key) as Hrep.
  { unfold merge_key, replace. by destruct (joined p). }
  split; [apply blank_deleted_merge_key |].
  split; [apply blank_deleted_squeeze, blank_deleted_merge_key |].
  rewrite Hrep. split; [apply replace_go_length_le; [done | lia] |].
  split.
  - apply replace_go_length_lt; [done | lia].
  - by apply replace_go_absent.
Qed.

Lemma merge_key_spec_witness :
  (String.length (merge_key ("a", "b") "ta b c") < 6)%nat /\
  merge_key ("a", "b") "ta c" = "ta c".
Proof.
  destruct (merge_key_spec ("a", "b") "ta b c") as (_ & _ & _ & Hlt & _).
  destruct (merge_key_spec ("a", "b") "ta c") as (_ & _ & _ & _ & Hid).
  split.
  - apply Hlt. by exists "t", " c".
  - apply Hid. intros (pre & post & E).
    destruct pre as [|? [|? [|? [|? [|? ?]]]]]; by simplify_eq/=.
Defined.

(** ** Lookups in the table that [merge_symbols] returns *)

Section Rekey.
Context (f : string -> string).

Lemma rekey_get (items acc : dict string) (k : string) :
  dict_get k (rekey f items acc) =
  match last_freq f k items with
  | Some v => Some v
  | None => dict_get k acc
  end.
Proof.
  revert acc. induction items as [|[k0 v0] items IH]; intros acc; [done |].
  simpl. rewrite IH, dict_get_set.
  destruct (last_freq f k items); [done |].
  destruct (decide (f k0 = k)) as [<- | Hne].
  - by rewrite decide_True.
  - by rewrite decide_False.
Qed.

Lemma rekey_keys_2 (items acc : dict string) (k : string) :
  k ∈ keys acc \/ k ∈ f <$> keys items -> k ∈ keys (rekey f items acc).
Proof.
  revert acc. induction items as [|[k0 v0] items IH]; intros acc; csimpl.
  - intros [? | []%elem_of_nil]. done.
  - intros H. apply IH. rewrite elem_of_keys_dict_set.
    destruct H as [? | [-> | ?]%elem_of_cons]; auto.
Qed.

Lemma rekey_length (items acc : dict string) :
  (length (rekey f items acc) <= length acc + length items)%nat.
Proof.
  revert acc. induction items as [|[k0 v0] items IH]; intros acc; simpl.
  - lia.
  - etrans; [apply IH |].
    assert (length (dict_set (f k0) v0 acc) <= S (length acc))%nat; [| lia].
    clear. induction acc as [|[k1 v1] acc IH]; simpl; [lia |].
    destruct (decide (f k0 = k1)); simpl; lia.
Qed.
End Rekey.

(** X12: the table that [merge_symbols] returns has no more items than
    the table it receives and has as keys the keys made of the old ones;
    under each of them it holds the frequency of the last old item that
    was given this key, so that when two keys become equal the later
    frequency replaces the earlier one. *)
Theorem merge_symbols_lookup (p : string * string) (t : dict string)
    (syms : list string) (k : string) :
  dict_get k (merge_symbols p t syms).1 = last_freq (merge_key p) k t /\
  (k ∈ keys (merge_symbols p t syms).1 <-> k ∈ merge_key p <$> keys t) /\
  NoDup (keys (merge_symbols p t syms).1) /\
  (length (merge_symbols p t syms).1 <= length t)%nat.
Proof.
  cbn [merge_symbols fst]. rewrite merge_loop_rekey.
  split; [| split; [| split]].
  - rewrite rekey_get. by destruct (last_freq (merge_key p) k t).
  - split.
    + by intros [[]%elem_of_nil | ?]%rekey_keys.
    + intros H. apply rekey_keys_2. by right.
  - apply rekey_NoDup, NoDup_nil_2.
  - apply (rekey_length (merge_key p) t []).
Qed.

(** ** Keys in training *)

Lemma canon_from_weaken (s : string) :
  canon_from true s = true -> canon_from false s = true.
Proof.
  destruct s as [|c s]; simpl; [done |].
  destruct (is_space c); [| done]. by rewrite andb_false_r.
Qed.

Lemma canon_from_blank_deleted (s s' : string) :
  blank_deleted s s' ->
  forall f, canon_from f s = true -> canon_from f s' = true.
Proof.
  induction 1 as [|c s s' _ IH|s s' _ IH]; intros f Hc; [done | |].
  - simpl in *. destruct (is_space c); [| by apply IH].
    apply andb_prop in Hc as [[-> ->]%andb_prop Hc]. simpl. by apply IH.
  - change (canon_from f (String " " s))
      with (true && negb f && canon_from true s) in Hc.
    apply andb_prop in Hc as [Hf Hc]. simpl in Hf.
    apply negb_true_iff in Hf as ->. by apply canon_from_weaken, IH.
Qed.

Lemma canonical_blank_deleted (s s' : string) :
  canonical s -> blank_deleted s s' -> canonical s'.
Proof.
  intros [-> | Hc] Hbd.
  - left. by inversion Hbd.
  - right. by apply (canon_from_blank_deleted s s').
Qed.

Lemma split_go_cur_nonempty (s cur : string) :
  cur <> "" -> split_go cur s <> [].
Proof.
  revert cur. induction s as [|c s IH]; intros cur Hcur; simpl.
  - by rewrite decide_False.
  - destruct (is_space c); [by rewrite decide_False |].
    apply IH. by destruct cur.
Qed.

Lemma join_cons_cons (sep x : string) (l : list string) :
  l <> [] -> join sep (x :: l) = x +:+ sep +:+ join sep l.
Proof. by destruct l. Qed.

Lemma split_go_canon (s : string) :
  (forall cur, cur <> "" -> canon_from false s = true ->
               join " " (split_go cur s) = cur +:+ s) /\
  (canon_from true s = true -> join " " (split_go "" s) = s).
Proof.
  induction s as [|c s [IH1 IH2]]; split.
  - intros cur Hcur _. simpl. rewrite decide_False by done.
    simpl. by rewrite sapp_nil_r.
  - done.
  - intros cur Hcur Hc. simpl in *. destruct (is_space c) eqn:Hsp.
    + apply andb_prop in Hc as [[Hb _]%andb_prop Hc].
      apply Ascii.eqb_eq in Hb as ->.
      rewrite decide_False by done.
      rewrite join_cons_cons, IH2; [done | done |].
      destruct s as [|c2 s2]; [done |]. simpl in *.
      destruct (is_space c2); [by rewrite andb_false_r in Hc |].
      by apply split_go_cur_nonempty.
    + rewrite IH1; [by rewrite sapp_assoc | by destruct cur | done].
  - intros Hc. simpl in *. destruct (is_space c) eqn:Hsp.
    + by rewrite andb_false_r in Hc.
    + by rewrite IH1.
Qed.

Lemma canonical_join_split (s : string) :
  canonical s -> join " " (split s) = s.
Proof. intros [-> | Hc]; [done |]. by apply split_go_canon. Qed.

Lemma join_cons_prefix (sep x : string) (l : list string) :
  exists rest, join sep (x :: l) = x +:+ rest.
Proof.
  destruct l as [|y l].
  - exists "". simpl. by rewrite sapp_nil_r.
  - by exists (sep +:+ join sep (y :: l)).
Qed.

Lemma adjacent_occurs (a b : string) (syms : list string) :
  (a, b) ∈ adjacent syms -> occurs (joined (a, b)) (join " " syms).
Proof.
  unfold joined. simpl.
  induction syms as [|x [|y l] IH]; [by intros ?%elem_of_nil ..|].
  change (adjacent (x :: y :: l)) with ((x, y) :: adjacent (y :: l)).
  change (join " " (x :: y :: l)) with (x +:+ " " +:+ join " " (y :: l)).
  intros [[= -> ->] | Hin]%elem_of_cons.
  - destruct (join_cons_prefix " " y l) as [rest ->].
    exists "", rest. simpl. by rewrite !sapp_assoc.
  - destruct (IH Hin) as (pre & post & ->).
    exists (x +:+ " " +:+ pre), post. by rewrite !sapp_assoc.
Qed.

Lemma canon_join_chars (w : string) (c : ascii) :
  no_space (String c w) = true ->
  canon_from true (join " " (chars (String c w))) = true.
Proof.
  revert c. induction w as [|c' w IH]; intros c Hw;
    simpl in Hw; apply andb_prop in Hw as [Hc Hw];
    apply negb_true_iff in Hc; rewrite join_chars_cons;
    cbn [canon_from]; rewrite Hc; [done |].
  change (canon_from false (String " " ?x))
    with (true && true && canon_from true x).
  simpl. by apply IH.
Qed.

Lemma canonical_join_chars (w : string) :
  no_space w = true -> canonical (join " " (chars w)).
Proof.
  destruct w as [|c w]; [by left |]. right. by apply canon_join_chars.
Qed.

Lemma length_join_chars (w : string) :
  String.length (join " " (chars w)) = (2 * String.length w - 1)%nat.
Proof.
  induction w as [|c w IH]; [done |].
  rewrite join_chars_cons. destruct w as [|c' w]; [done |].
  cbn [String.length] in *. rewrite IH. lia.
Qed.

Lemma squeeze_length (s : string) :
  (String.length (squeeze s) <= String.length s)%nat.
Proof.
  induction s as [|c s IH]; simpl; [done |].
  destruct (Ascii.eqb c " "); simpl; lia.
Qed.

Lemma sum_list_with_fmap {A B} (g : A -> B) (f : B -> nat) (l : list A) :
  sum_list_with f (g <$> l) = sum_list_with (f ∘ g) l.
Proof. induction l as [|x l IH]; csimpl; [done | by rewrite IH]. Qed.

Lemma sum_list_with_eq {A} (f g : A -> nat) (l : list A) :
  (forall x, f x = g x) -> sum_list_with f l = sum_list_with g l.
Proof.
  intros H. induction l as [|x l IH]; simpl; [done |]. by rewrite H, IH.
Qed.

Lemma sum_list_with_le {A} (f g : A -> nat) (l : list A) :
  (forall x, x ∈ l -> (f x <= g x)%nat) ->
  (sum_list_with f l <= sum_list_with g l)%nat.
Proof.
  induction l as [|x l IH]; intros H; simpl; [done |].
  pose proof (H x ltac:(left)). 
  assert (sum_list_with f l <= sum_list_with g l)%nat; [| lia].
  apply IH. intros y Hy. apply H. by right.
Qed.

Lemma sum_list_with_lt {A} (f g : A -> nat) (l : list A) (x : A) :
  (forall y, y ∈ l -> (f y <= g y)%nat) ->
  x ∈ l -> (f x < g x)%nat ->
  (sum_list_with f l < sum_list_with g l)%nat.
Proof.
  induction l as [|y l IH]; intros H Hx Hlt; [by apply elem_of_nil in Hx |].
  simpl. pose proof (H y ltac:(left)).
  assert (forall z, z ∈ l -> (f z <= g z)%nat) as Hl
    by (intros z Hz; apply H; by right).
  apply elem_of_cons in Hx as [-> | Hx].
  - pose proof (sum_list_with_le f g l Hl). lia.
  - pose proof (IH Hl Hx Hlt). lia.
Qed.

(** One iteration on a table of distinct words with keys in the form of
    the construction: the items stay, every key loses delimiters only,
    and the key in which the selected pair is adjacent loses one at
    least. *)
Lemma merge_symbols_progress (p : string * string) (t : dict string)
    (syms : list string) :
  NoDup (squeeze <$> keys t) ->
  Forall canonical (keys t) ->
  get_max_freq_pair t = Some p ->
  (merge_symbols p t syms).1 = prod_map (merge_key p) id <$> t /\
  Forall canonical (keys (merge_symbols p t syms).1) /\
  (key_chars (merge_symbols p t syms).1 < key_chars t)%nat.
Proof.
  intros Hnd Hcan Hp.
  assert ((merge_symbols p t syms).1 = prod_map (merge_key p) id <$> t)
    as Heq.
  { apply merge_symbols_no_collision.
    apply NoDup_squeezed_keys; [apply squeeze_replace | done]. }
  split; [done |]. rewrite Heq, keys_rekeyed. split.
  - apply Forall_fmap. eapply Forall_impl; [exact Hcan |].
    intros key Hk. simpl.
    eapply canonical_blank_deleted; [done | apply blank_deleted_merge_key].
  - unfold key_chars. rewrite keys_rekeyed, sum_list_with_fmap.
    apply max_key_Some in Hp as (v & Hin & _).
    assert (p ∈ keys (pair_freqs t)) as Hk.
    { apply list_elem_of_fmap. by exists (p, v). }
    apply pair_freqs_keys in Hk as (token & freq & Htok & Hadj).
    assert (token ∈ keys t) as Htk.
    { apply list_elem_of_fmap. by exists (token, freq). }
    apply (sum_list_with_lt _ _ _ token); [| done |].
    + intros key _. apply merge_key_length.
    + simpl. apply merge_key_shorter.
      rewrite Forall_forall in Hcan.
      rewrite <- (canonical_join_split token) by by apply Hcan.
      destruct p as [a b]. by apply adjacent_occurs.
Qed.

Lemma train_loop_progress (n : nat) :
  forall st st',
    NoDup (squeeze <$> keys (tr_token_freqs st)) ->
    Forall canonical (keys (tr_token_freqs st)) ->
    train_loop n st = Some st' ->
    squeeze <$> keys (tr_token_freqs st')
      = squeeze <$> keys (tr_token_freqs st) /\
    values (tr_token_freqs st') = values (tr_token_freqs st) /\
    Forall canonical (keys (tr_token_freqs st')) /\
    (n + key_chars (tr_token_freqs st') <= key_chars (tr_token_freqs st))%nat.
Proof.
  induction n as [|n IH]; intros st st' Hnd Hcan Hrun.
  - injection Hrun as <-. repeat split; [done | lia].
  - rewrite train_loop_S in Hrun.
    destruct (get_max_freq_pair (tr_token_freqs st)) as [p|] eqn:Hp;
      [| done].
    destruct (merge_symbols_progress p _ (tr_symbols st) Hnd Hcan Hp)
      as (Heq & Hcan' & Hlt).
    assert (squeeze <$> keys (merge_symbols p (tr_token_freqs st)
                                (tr_symbols st)).1
            = squeeze <$> keys (tr_token_freqs st)) as Hsq.
    { rewrite Heq, keys_rekeyed, <- list_fmap_compose.
      apply list_fmap_ext. intros; simpl; apply squeeze_replace. }
    assert (values (merge_symbols p (tr_token_freqs st) (tr_symbols st)).1
            = values (tr_token_freqs st)) as Hval.
    { rewrite Heq. unfold values. by rewrite <- list_fmap_compose. }
    apply IH in Hrun as (Hsq' & Hval' & Hcan'' & Hle);
      [| by cbn [merge_step tr_token_freqs]; rewrite Hsq
       | by cbn [merge_step tr_token_freqs]].
    cbn [merge_step tr_token_freqs] in *.
    split; [by rewrite Hsq' |]. split; [by rewrite Hval' |].
    split; [done | lia].
Qed.

Lemma init_token_freqs_canonical (raw : dict string) :
  NoDup (keys raw) ->
  Forall (fun w => no_space w = true) (keys raw) ->
  squeeze <$> keys (init_token_freqs raw) = keys raw /\
  values (init_token_freqs raw) = values raw /\
  Forall canonical (keys (init_token_freqs raw)) /\
  key_chars (init_token_freqs raw)
    = sum_list_with (fun w => 2 * String.length w - 1)%nat (keys raw).
Proof.
  intros Hnd Hns. rewrite init_token_freqs_items by done.
  unfold key_chars. rewrite keys_rekeyed.
  split; [| split; [| split]].
  - rewrite <- list_fmap_compose.
    rewrite <- (list_fmap_id (keys raw)) at 2.
    apply list_fmap_ext. intros i w Hw. simpl.
    rewrite squeeze_join_chars. apply no_space_no_blank.
    rewrite Forall_forall in Hns. apply Hns.
    by apply list_elem_of_lookup_2 in Hw.
  - unfold values. by rewrite <- list_fmap_compose.
  - apply Forall_fmap. eapply Forall_impl; [exact Hns |].
    intros w Hw. by apply canonical_join_chars.
  - rewrite sum_list_with_fmap. apply sum_list_with_eq.
    intros w. simpl. apply length_join_chars.
Qed.

Lemma Forall2_items (P : string -> string -> Prop) (raw t : dict string) :
  Forall2 P (keys raw) (keys t) -> values t = values raw ->
  Forall2 (fun rw tf => tf.2 = rw.2 /\ P rw.1 tf.1) raw t.
Proof.
  unfold keys, values. revert t.
  induction raw as [|[w f] raw IH]; intros [|[k v] t] Hk Hv; csimpl in *.
  - constructor.
  - inversion Hk.
  - inversion Hk.
  - apply Forall2_cons in Hk as [Hp Hk]. injection Hv as -> Hv.
    constructor; [done | by apply IH].
Qed.

(** X13: in every table that a training run from distinct raw words
    without white space reaches, the items are those of the raw table,
    in the same order and with the same frequencies; every key spells
    its raw word once the delimiters are removed, and is the sequence
    of its symbols with one blank between two symbols. *)
Theorem train_keys (raw : dict string) (n : nat) (st : training) :
  NoDup (keys raw) ->
  Forall (fun w => no_space w = true) (keys raw) ->
  train n raw = Some st ->
  Forall2 (fun rw tf =>
             tf.2 = rw.2 /\
             (squeeze tf.1 = rw.1 /\ join " " (split tf.1) = tf.1))
          raw (tr_token_freqs st).
Proof.
  intros Hnd Hns Hrun.
  destruct (init_token_freqs_canonical raw Hnd Hns)
    as (Hsq & Hval & Hcan & _).
  apply train_loop_progress in Hrun as (Hsq' & Hval' & Hcan' & _);
    cbn [tr_token_freqs] in *; [| by rewrite Hsq | done].
  apply (Forall2_items
           (fun w key => squeeze key = w /\ join " " (split key) = key));
    [| by rewrite Hval', Hval].
  rewrite Hsq in Hsq'. rewrite <- Hsq'.
  apply Forall2_fmap_l, Forall_Forall2_diag.
  eapply Forall_impl; [exact Hcan' |].
  intros key Hk. simpl. split; [done | by apply canonical_join_split].
Qed.

Lemma train_keys_witness :
  exists st,
    train 10 raw_token_freqs = Some st /\
    Forall2 (fun rw tf =>
               tf.2 = rw.2 /\
               (squeeze tf.1 = rw.1 /\ join " " (split tf.1) = tf.1))
            raw_token_freqs (tr_token_freqs st).
Proof.
  destruct (train 10 raw_token_freqs) as [st|] eqn:E; [| by vm_compute in E].
  exists st. split; [done |].
  apply (train_keys raw_token_freqs 10 st); [compute_done | | exact E].
  repeat constructor.
Defined.

Lemma raw_gaps_bound (raw : dict string) (n m : nat) :
  (n + m <= sum_list_with (fun w => 2 * String.length w - 1)%nat (keys raw))%nat ->
  (sum_list_with String.length (keys raw) <= m)%nat ->
  (n <= raw_gaps raw)%nat.
Proof.
  unfold raw_gaps.
  assert (sum_list_with (fun w => 2 * String.length w - 1)%nat (keys raw)
          <= sum_list_with String.length (keys raw)
             + sum_list_with (fun w => String.length w - 1)%nat (keys raw))%nat
    as H; [| lia].
  induction (keys raw) as [|w l IH]; simpl in *; lia.
Qed.

(** X14: in a training run from distinct raw words without white space
    every iteration removes a delimiter at least, so that the keys lose
    as many characters as there are iterations, at least; a run
    completes no more iterations than the raw words have places between
    two characters, and a larger number of merges fails. *)
Theorem train_merges_bounded (raw : dict string) (n : nat) :
  NoDup (keys raw) ->
  Forall (fun w => no_space w = true) (keys raw) ->
  (forall st, train n raw = Some st ->
     (n + key_chars (tr_token_freqs st)
      <= key_chars (init_token_freqs raw))%nat /\
     (n <= raw_gaps raw)%nat) /\
  ((raw_gaps raw < n)%nat -> train n raw = None).
Proof.
  intros Hnd Hns.
  assert (forall st, train n raw = Some st ->
     (n + key_chars (tr_token_freqs st)
      <= key_chars (init_token_freqs raw))%nat /\
     (n <= raw_gaps raw)%nat) as H.
  { intros st Hrun.
    destruct (init_token_freqs_canonical raw Hnd Hns)
      as (Hsq & _ & Hcan & Hlen).
    apply train_loop_progress in Hrun as (Hsq' & _ & _ & Hle);
      cbn [tr_token_freqs] in *; [| by rewrite Hsq | done].
    split; [done |].
    apply (raw_gaps_bound raw n (key_chars (tr_token_freqs st)));
      [by rewrite <- Hlen |].
    rewrite <- Hsq, <- Hsq', sum_list_with_fmap. unfold key_chars.
    apply sum_list_with_le. intros key _. apply squeeze_length. }
  split; [done |]. intros Hlt.
  destruct (train n raw) as [st|] eqn:E; [| done].
  destruct (H st eq_refl) as [_ Hle]. lia.
Qed.

Lemma train_merges_bounded_witness :
  train 21 raw_token_freqs = None.
Proof.
  destruct (train_merges_bounded raw_token_freqs 21) as [_ H].
  - compute_done.
  - repeat constructor.
  - apply H. vm_compute. lia.
Defined.

(** ** The mass of [pairs] *)

Section DictTotal.
Context {K : Type} `{EqDecision K}.
Implicit Types (d : dict K) (k : K) (v : Z).

Lemma total_dict_set k v d :
  total (dict_set k v d) = total d - default 0 (dict_get k d) + v.
Proof.
  unfold total, values. induction d as [|[k0 v0] d IH]; csimpl; [lia |].
  destruct (decide (k = k0)); csimpl; [lia |]. rewrite IH. lia.
Qed.

Lemma total_dict_add k v d : total (dict_add k v d) = total d + v.
Proof. unfold dict_add. rewrite total_dict_set. lia. Qed.

Lemma total_foldl_dict_add (f : Z) (ps : list K) d :
  total (foldl (fun acc p => dict_add p f acc) d ps)
  = total d + f * Z.of_nat (length ps).
Proof.
  revert d. induction ps as [|p ps IH]; intros d; simpl; [lia |].
  rewrite IH, total_dict_add. lia.
Qed.
End DictTotal.

Lemma adjacent_length (l : list string) :
  length (adjacent l) = (length l - 1)%nat.
Proof.
  induction l as [|x [|y l] IH]; [done | done |].
  change (adjacent (x :: y :: l)) with ((x, y) :: adjacent (y :: l)).
  simpl in *. rewrite IH. lia.
Qed.

Lemma total_pair_freqs_from (d : dict (string * string)) (t : dict string) :
  total (pair_freqs_from d t) = total d + adjacency_mass t.
Proof.
  unfold pair_freqs_from. revert d.
  induction t as [|[token freq] t IH]; intros d; simpl; [lia |].
  rewrite IH. unfold count_token.
  rewrite total_foldl_dict_add, adjacent_length. simpl. lia.
Qed.

(** X15: the totals that [get_max_freq_pair] accumulates in [pairs] add
    up to the frequency of every key times the number of places between
    two symbols of the key: every adjacency is counted once, under one
    pair. *)
Theorem pair_freqs_total (t : dict string) :
  total (pair_freqs t) = adjacency_mass t.
Proof. unfold pair_freqs. by rewrite total_pair_freqs_from. Qed.

(** ** Where the learned symbols come from *)

Lemma occurs_squeeze (old s : string) :
  occurs old s -> occurs (squeeze old) (squeeze s).
Proof.
  intros (pre & post & ->). exists (squeeze pre), (squeeze post).
  by rewrite !squeeze_app.
Qed.

Lemma selected_pair_occurs (t : dict string) (p : string * string) :
  Forall canonical (keys t) ->
  get_max_freq_pair t = Some p ->
  exists key, key ∈ keys t /\ occurs (merged p) (squeeze key).
Proof.
  intros Hcan Hp.
  assert (no_space p.1 = true /\ no_space p.2 = true) as [H1 H2].
  { apply max_key_Some in Hp as (v & Hin & _).
    assert (p ∈ keys (pair_freqs t)) as Hk.
    { apply list_elem_of_fmap. by exists (p, v). }
    apply pair_freqs_keys in Hk as (token & freq & _ & Hadj).
    destruct p as [a b]. apply adjacent_elem_of in Hadj as [Ha Hb].
    pose proof (split_go_no_space token "" eq_refl) as Hall.
    rewrite Forall_forall in Hall. split; by apply Hall. }
  apply max_key_Some in Hp as (v & Hin & _).
  assert (p ∈ keys (pair_freqs t)) as Hk.
  { apply list_elem_of_fmap. by exists (p, v). }
  apply pair_freqs_keys in Hk as (token & freq & Htok & Hadj).
  assert (token ∈ keys t) as Htk.
  { apply list_elem_of_fmap. by exists (token, freq). }
  exists token. split; [done |].
  replace (merged p) with (squeeze (joined p)).
  - apply occurs_squeeze.
    rewrite Forall_forall in Hcan.
    rewrite <- (canonical_join_split token) by by apply Hcan.
    destruct p as [a b]. by apply adjacent_occurs.
  - rewrite squeeze_joined_merged. unfold merged. rewrite squeeze_app.
    by rewrite (no_space_no_blank _ H1), (no_space_no_blank _ H2).
Qed.

Lemma train_loop_merges_occur (ws : list string) (n : nat) :
  forall st st',
    squeeze <$> keys (tr_token_freqs st) = ws ->
    NoDup ws ->
    Forall canonical (keys (tr_token_freqs st)) ->
    train_loop n st = Some st' ->
    Forall (fun sym => exists w, w ∈ ws /\ occurs sym w)
           (merged <$> tr_merges st) ->
    Forall (fun sym => exists w, w ∈ ws /\ occurs sym w)
           (merged <$> tr_merges st').
Proof.
  induction n as [|n IH]; intros st st' Hws Hnd Hcan Hrun Hall.
  - by injection Hrun as <-.
  - rewrite train_loop_S in Hrun.
    destruct (get_max_freq_pair (tr_token_freqs st)) as [p|] eqn:Hp;
      [| done].
    destruct (merge_symbols_progress p _ (tr_symbols st)
                ltac:(by rewrite Hws) Hcan Hp) as (Heq & Hcan' & _).
    apply (IH (merge_step p st) st'); [| done | done | done |];
      cbn [merge_step tr_token_freqs tr_merges].
    + rewrite Heq, keys_rekeyed, <- list_fmap_compose, <- Hws.
      apply list_fmap_ext. intros; simpl; apply squeeze_replace.
    + rewrite fmap_app, Forall_app. split; [done |].
      repeat constructor.
      destruct (selected_pair_occurs _ _ Hcan Hp) as (key & Hkey & Hocc).
      exists (squeeze key). split; [| done].
      rewrite <- Hws. by apply list_elem_of_fmap_2.
Qed.

(** X16: in a training run from distinct raw words without white space
    every symbol that the run appends to the vocabulary is a part of one
    of the raw words: the vocabulary holds the initial symbols and
    pieces of training words, nothing else. *)
Theorem learned_symbols_in_words (raw : dict string) (n : nat)
    (st : training) :
  NoDup (keys raw) ->
  Forall (fun w => no_space w = true) (keys raw) ->
  train n raw = Some st ->
  forall sym, sym ∈ tr_symbols st ->
    sym ∈ symbols0 \/ exists w, w ∈ keys raw /\ occurs sym w.
Proof.
  intros Hnd Hns Hrun sym Hsym.
  destruct (init_token_freqs_canonical raw Hnd Hns) as (Hsq & _ & Hcan & _).
  rewrite (vocabulary_growth_symbols _ _ _ Hrun) in Hsym.
  apply elem_of_app in Hsym as [? | Hsym]; [by left | right].
  apply (train_loop_merges_occur (keys raw)) in Hrun;
    [| done | done | done | constructor].
  rewrite Forall_forall in Hrun. by apply Hrun.
Qed.

Lemma learned_symbols_in_words_witness :
  exists st,
    train 10 raw_token_freqs = Some st /\
    forall sym, sym ∈ tr_symbols st ->
      sym ∈ symbols0 \/ exists w, w ∈ keys raw_token_freqs /\ occurs sym w.
Proof.
  destruct (train 10 raw_token_freqs) as [st|] eqn:E; [| by vm_compute in E].
  exists st. split; [done |].
  apply (learned_symbols_in_words raw_token_freqs 10 st);
    [compute_done | repeat constructor | exact E].
Defined.

Lemma segment_token_greedy_iff_witness : greedy symbols0 "ab" ["a"; "b"].
Proof.
  apply (segment_token_greedy_iff symbols0 "ab" ["a"; "b"]).
  vm_compute. reflexivity.
Defined.

(** * Invariants of every training run *)

(** ** Conservation of the frequencies *)

Lemma expand_from_app (f : bool) (x y : string) :
  expand_from f (x +:+ y) = expand_from f x +:+ expand_from (ends_char f x) y.
Proof.
  revert f. induction x as [|c x IH]; intros f; simpl; [done |].
  destruct (is_space c); simpl; [by rewrite IH |].
  destruct f; simpl; by rewrite IH.
Qed.

Lemma ends_char_no_space (f : bool) (a : string) :
  a <> "" -> no_space a = true -> ends_char f a = true.
Proof.
  revert f. induction a as [|c a IH]; intros f Hne Hns; [done |].
  simpl in *. apply andb_prop in Hns as [Hc Ha].
  destruct a as [|c' a]; [done |]. by apply IH.
Qed.

(** A merge of two symbols deletes blanks between two characters that
    are not white space, and [expand] puts them back. *)
Lemma expand_from_merge_key (p : string * string) (key : string) (f : bool) :
  p.1 <> "" -> p.2 <> "" -> no_space p.1 = true -> no_space p.2 = true ->
  expand_from f (merge_key p key) = expand_from f key.
Proof.
  intros Ha Hb Hsa Hsb. rewrite merge_key_replace_go. revert f.
  apply (replace_go_scan (joined p) (merged p)
           (fun s s' => forall f, expand_from f s' = expand_from f s)).
  - apply joined_nonempty.
  - done.
  - intros r IH f. destruct p as [a b]. unfold joined, merged in *.
    simpl in *. rewrite !sapp_assoc, !(expand_from_app f a).
    rewrite (ends_char_no_space f a) by done. f_equal.
    destruct b as [|y b]; [done |]. simpl in Hsb.
    apply andb_prop in Hsb as [Hy _]. apply negb_true_iff in Hy.
    simpl. rewrite Hy. do 2 f_equal.
    rewrite !expand_from_app. by rewrite IH.
  - intros c s _ IH f. simpl.
    destruct (is_space c); [by rewrite IH |]. destruct f; by rewrite IH.
Qed.

Lemma expand_join_chars (w : string) :
  expand (join " " (chars w)) = join " " (chars w).
Proof.
  unfold expand. induction w as [|c w IH]; [done |].
  rewrite join_chars_cons.
  assert (forall f,
    expand_from f (match w with
                   | EmptyString => ""
                   | String _ _ => String " " (join " " (chars w))
                   end)
    = match w with
      | EmptyString => ""
      | String _ _ => String " " (join " " (chars w))
      end) as Hrest.
  { intros f. destruct w as [|c' w]; [done |].
    change (expand_from f (String " " ?x))
      with (String " " (expand_from false x)).
    by rewrite IH. }
  cbn [expand_from]. destruct (is_space c); by rewrite Hrest.
Qed.

Lemma NoDup_fmap_invariant {A B} (g : A -> B) (f : A -> A) (l : list A) :
  (forall x, x ∈ l -> g (f x) = g x) ->
  NoDup (g <$> l) -> NoDup (f <$> l) /\ NoDup (g <$> (f <$> l)).
Proof.
  intros Hf Hnd.
  assert (g <$> (f <$> l) = g <$> l) as E.
  { rewrite <- list_fmap_compose. apply list_fmap_ext.
    intros i x Hx. apply Hf. by eapply list_elem_of_lookup_2. }
  split; [| by rewrite E]. apply (NoDup_fmap_1 g). by rewrite E.
Qed.

Lemma init_token_freqs_word_table (raw : dict string) :
  NoDup (keys raw) ->
  word_table (init_token_freqs raw) /\
  total (init_token_freqs raw) = total raw.
Proof.
  intros Hnd. rewrite init_token_freqs_items by done.
  split; [| apply total_rekeyed].
  unfold word_table. rewrite keys_rekeyed, <- list_fmap_compose.
  rewrite (list_fmap_ext _ (fun w => join " " (chars w)) (keys raw))
    by (intros; simpl; apply expand_join_chars).
  apply NoDup_fmap_2; [| done]. intros w1 w2. apply join_chars_inj.
Qed.

Lemma selected_pair_symbols (t : dict string) (p : string * string) :
  get_max_freq_pair t = Some p ->
  (exists key, key ∈ keys t /\ p ∈ adjacent (split key)) /\
  p.1 <> "" /\ p.2 <> "" /\ no_space p.1 = true /\ no_space p.2 = true.
Proof.
  intros Hp. destruct (get_max_freq_pair_nonempty _ _ Hp) as [H1 H2].
  apply max_key_Some in Hp as (v & Hin & _).
  assert (p ∈ keys (pair_freqs t)) as Hk.
  { apply list_elem_of_fmap. by exists (p, v). }
  apply pair_freqs_keys in Hk as (token & freq & Htok & Hadj).
  split.
  { exists token. split; [| done]. apply list_elem_of_fmap.
    by exists (token, freq). }
  split; [done |]. split; [done |].
  destruct p as [a b]. apply adjacent_elem_of in Hadj as [Ha Hb].
  pose proof (split_go_no_space token "" eq_refl) as Hall.
  rewrite Forall_forall in Hall. split; by apply Hall.
Qed.

Lemma merge_symbols_word_table (p : string * string) (t : dict string)
    (syms : list string) :
  word_table t -> get_max_freq_pair t = Some p ->
  NoDup (merge_key p <$> keys t) /\
  (merge_symbols p t syms).1 = prod_map (merge_key p) id <$> t /\
  total (merge_symbols p t syms).1 = total t /\
  word_table (merge_symbols p t syms).1.
Proof.
  intros Hwt Hp.
  destruct (selected_pair_symbols _ _ Hp) as (_ & Ha & Hb & Hsa & Hsb).
  destruct (NoDup_fmap_invariant expand (merge_key p) (keys t))
    as [Hnd Hnd']; [| done |].
  { intros key _. by apply expand_from_merge_key. }
  split; [done |].
  rewrite merge_symbols_no_collision by done.
  split; [done |]. split; [apply total_rekeyed |].
  unfold word_table. by rewrite keys_rekeyed.
Qed.

Lemma train_loop_word_table (n : nat) (st st' : training) :
  word_table (tr_token_freqs st) ->
  train_loop n st = Some st' ->
  word_table (tr_token_freqs st') /\
  total (tr_token_freqs st') = total (tr_token_freqs st).
Proof.
  revert st. induction n as [|n IH]; intros st Hwt Hrun.
  - by injection Hrun as <-.
  - rewrite train_loop_S in Hrun.
    destruct (get_max_freq_pair (tr_token_freqs st)) as [p|] eqn:Hp; [| done].
    destruct (merge_symbols_word_table p (tr_token_freqs st)
                (tr_symbols st) Hwt Hp) as (_ & _ & Htot & Hwt').
    apply IH in Hrun as [? Htot']; [| done].
    split; [done |]. rewrite Htot'. apply Htot.
Qed.

Lemma is_space_blank (c : ascii) :
  is_space c = false -> Ascii.eqb c " " = false.
Proof.
  intros Hc. destruct (Ascii.eqb_spec c " ") as [-> |]; [| done].
  by vm_compute in Hc.
Qed.

(** On a key in the form of the construction of [token_freqs], [expand]
    gives the key of that construction for the word of the key. *)
Lemma expand_from_canon (s : string) :
  (canon_from true s = true ->
   expand_from false s = join " " (chars (squeeze s))) /\
  (canon_from false s = true ->
   expand_from true s
   = match squeeze s with
     | EmptyString => ""
     | String _ _ => String " " (join " " (chars (squeeze s)))
     end).
Proof.
  induction s as [|c s [IHt IHf]]; [done |].
  cbn [canon_from expand_from squeeze].
  destruct (is_space c) eqn:Hc.
  - split; intros H; [by rewrite andb_false_r in H |].
    rewrite andb_true_r in H. apply andb_prop in H as [Hb H].
    apply Ascii.eqb_eq in Hb as ->. simpl. rewrite (IHt H).
    destruct s as [|c' s]; [done |].
    cbn [canon_from] in H. cbn [squeeze].
    destruct (is_space c') eqn:Hc'; [by rewrite andb_false_r in H |].
    by rewrite (is_space_blank _ Hc').
  - rewrite (is_space_blank _ Hc).
    split; intros H; rewrite (IHf H), join_chars_cons; done.
Qed.

Lemma expand_canonical (key : string) :
  canonical key -> expand key = join " " (chars (squeeze key)).
Proof.
  intros [-> | H]; [done |]. by apply expand_from_canon.
Qed.

Lemma word_table_canonical (t : dict string) :
  Forall canonical (keys t) -> NoDup (squeeze <$> keys t) -> word_table t.
Proof.
  intros Hcan Hnd. unfold word_table.
  rewrite (list_fmap_ext expand (fun key => join " " (chars (squeeze key)))
             (keys t)).
  - rewrite (list_fmap_compose squeeze (fun w => join " " (chars w))).
    apply NoDup_fmap_2; [| done]. intros w1 w2. apply join_chars_inj.
  - intros i key Hkey. apply expand_canonical.
    rewrite Forall_forall in Hcan. apply Hcan.
    by eapply list_elem_of_lookup_2.
Qed.

(** C1: on every Word Frequency Table (keys that are segmentations of
    pairwise distinct words) and for every selected pair, [merge_symbols]
    makes no two keys equal, keeps every item with its frequency, so that
    the sum of the frequencies is unchanged, and returns a Word Frequency
    Table again; the table built from a dictionary of raw words is a Word
    Frequency Table with the sum of the raw frequencies; hence in every
    training run, after any number of merge iterations, the sum of the
    frequencies of [token_freqs] is the sum before any merge. Every table
    whose keys are symbols with one blank between them and spell pairwise
    distinct words is a Word Frequency Table. *)
Theorem frequency_conservation :
  (forall (p : string * string) (t : dict string) (syms : list string),
      word_table t -> get_max_freq_pair t = Some p ->
      NoDup (merge_key p <$> keys t) /\
      (merge_symbols p t syms).1 = prod_map (merge_key p) id <$> t /\
      total (merge_symbols p t syms).1 = total t /\
      word_table (merge_symbols p t syms).1) /\
  (forall (raw : dict string) (n : nat) (st : training),
      NoDup (keys raw) ->
      train n raw = Some st ->
      word_table (init_token_freqs raw) /\
      total (init_token_freqs raw) = total raw /\
      word_table (tr_token_freqs st) /\
      total (tr_token_freqs st) = total (init_token_freqs raw)) /\
  (forall t : dict string,
      Forall canonical (keys t) -> NoDup (squeeze <$> keys t) ->
      word_table t).
Proof.
  split; [| split].
  - intros p t syms. apply merge_symbols_word_table.
  - intros raw n st Hnd Hrun.
    destruct (init_token_freqs_word_table raw Hnd) as [Hwt Htot].
    split; [done |]. split; [done |].
    by apply train_loop_word_table in Hrun.
  - apply word_table_canonical.
Qed.

Lemma frequency_conservation_witness :
  total (merge_symbols ("t", "a") (init_token_freqs raw_token_freqs)
           symbols0).1 = 16 /\
  (exists st, train 10 raw_token_freqs = Some st /\
              total (tr_token_freqs st) = 16) /\
  (exists st, train 2 [("ab", 2); ("a b", 1); ("a bc", 5)] = Some st /\
              total (tr_token_freqs st) = 8).
Proof.
  destruct frequency_conservation as (Hstep & Hrun & Htable).
  split; [| split].
  - destruct (Hstep ("t", "a") (init_token_freqs raw_token_freqs) symbols0)
      as (_ & _ & -> & _); [| reflexivity | reflexivity].
    apply Htable; [repeat constructor; by right | compute_done].
  - destruct (train 10 raw_token_freqs) as [st|] eqn:E; [| by vm_compute in E].
    exists st. split; [done |].
    destruct (Hrun raw_token_freqs 10%nat st) as (_ & H0 & _ & H1);
      [compute_done | done |].
    by rewrite H1, H0.
  - destruct (train 2 [("ab", 2); ("a b", 1); ("a bc", 5)]) as [st|] eqn:E;
      [| by vm_compute in E].
    exists st. split; [done |].
    destruct (Hrun [("ab", 2); ("a b", 1); ("a bc", 5)] 2%nat st)
      as (_ & H0 & _ & H1); [compute_done | done |].
    by rewrite H1, H0.
Defined.

(** ** Prefixes *)

Lemma prefix_nil (s : string) : String.prefix "" s = true.
Proof. by destruct s. Qed.

Lemma prefix_refl (s : string) : String.prefix s s = true.
Proof. apply prefix_app. exists "". by rewrite sapp_nil_r. Qed.

Lemma prefix_app_r (p x y : string) :
  String.prefix p x = true -> String.prefix p (x +:+ y) = true.
Proof.
  intros [r ->]%prefix_app. apply prefix_app. exists (r +:+ y).
  by rewrite sapp_assoc.
Qed.

Lemma prefix_trans (p q s : string) :
  String.prefix p q = true -> String.prefix q s = true ->
  String.prefix p s = true.
Proof. intros Hp [r ->]%prefix_app. by apply prefix_app_r. Qed.

Lemma sapp_inv_head (a x y : string) : a +:+ x = a +:+ y -> x = y.
Proof. induction a as [|c a IH]; simpl; [done |]. intros [= E]. auto. Qed.

Lemma prefix_cancel (t x y : string) :
  String.prefix (t +:+ x) (t +:+ y) = true <-> String.prefix x y = true.
Proof.
  rewrite !prefix_app. split; intros [r Hr]; exists r.
  - rewrite sapp_assoc in Hr. by apply sapp_inv_head in Hr.
  - by rewrite sapp_assoc, Hr.
Qed.

Lemma prefix_comparable (p q s : string) :
  String.prefix p s = true -> String.prefix q s = true ->
  (String.length p <= String.length q)%nat -> String.prefix p q = true.
Proof.
  revert q s. induction p as [|c p IH]; intros q s Hp Hq Hlen.
  - by destruct q.
  - destruct q as [|c' q]; [simpl in Hlen; lia |].
    destruct s as [|c'' s]; [done |]. simpl in *.
    destruct (ascii_dec c c'') as [-> |]; [| done].
    destruct (ascii_dec c' c'') as [-> |]; [| done].
    destruct (ascii_dec c'' c''); [| done].
    apply (IH q s); [done | done | lia].
Qed.

Lemma prefix_proper (p s : string) :
  String.prefix p s = true -> s = p \/ exists z, z <> "" /\ s = p +:+ z.
Proof.
  intros [[|c z] ->]%prefix_app.
  - left. by rewrite sapp_nil_r.
  - right. by exists (String c z).
Qed.

Lemma sapp_eq_nil_r (p z : string) : p +:+ z = p -> z = "".
Proof.
  intros E. apply (f_equal String.length) in E. rewrite slength_app in E.
  destruct z; [done | simpl in E; lia].
Qed.

Lemma prefix_app_nonempty (p z : string) :
  z <> "" -> String.prefix (p +:+ z) p = false.
Proof.
  intros Hz. destruct (String.prefix (p +:+ z) p) eqn:E; [| done].
  apply prefix_length in E. rewrite slength_app in E.
  destruct z; [done | simpl in E; lia].
Qed.

(** ** The symbols of a key after a merge *)

Section Glue.
Context (a b : string).

Lemma glue_cons (r t : string) (rest : list string) :
  glue a b r (t :: rest) =
  if ends_with a r && String.prefix b t
  then (t +:+ (glue a b (sdrop (String.length b) t) rest).1,
        (glue a b (sdrop (String.length b) t) rest).2)
  else ("", (t +:+ (glue a b t rest).1) :: (glue a b t rest).2).
Proof. done. Qed.

Lemma glue_concat (r : string) (rest : list string) :
  (glue a b r rest).1 +:+ join "" (glue a b r rest).2 = join "" rest.
Proof.
  revert r. induction rest as [|t rest IH]; intros r; [done |].
  rewrite glue_cons, join_empty_cons.
  destruct (ends_with a r && String.prefix b t); cbn [fst snd].
  - by rewrite sapp_assoc, IH.
  - rewrite join_empty_cons, sapp_assoc, IH. done.
Qed.

Lemma glue_prefix (r : string) (rest : list string) :
  String.prefix (glue a b r rest).1 (join "" rest) = true.
Proof. apply prefix_app. eexists. symmetry. apply glue_concat. Qed.

Lemma glue_elem_of (r : string) (rest : list string) (u : string) :
  u ∈ (glue a b r rest).2 ->
  exists l t rest', rest = l ++ t :: rest' /\ u = t +:+ (glue a b t rest').1.
Proof.
  revert r. induction rest as [|t rest IH]; intros r.
  - by intros ?%elem_of_nil.
  - rewrite glue_cons.
    destruct (ends_with a r && String.prefix b t); cbn [fst snd].
    + intros (l & t0 & rest' & -> & ->)%IH. by exists (t :: l), t0, rest'.
    + intros [-> | Hin]%elem_of_cons; [by exists [], t, rest |].
      apply IH in Hin as (l & t0 & rest' & -> & ->).
      by exists (t :: l), t0, rest'.
Qed.

Lemma glue_suffix (r : string) (rest l1' : list string) (s' : string)
    (l2' : list string) :
  (glue a b r rest).2 = l1' ++ s' :: l2' ->
  exists l s rest',
    rest = l ++ s :: rest' /\ s' = s +:+ (glue a b s rest').1 /\
    l2' = (glue a b s rest').2.
Proof.
  revert r l1'. induction rest as [|t rest IH]; intros r l1'.
  - by destruct l1'.
  - rewrite glue_cons.
    destruct (ends_with a r && String.prefix b t); cbn [fst snd].
    + intros (l & s & rest' & -> & ? & ?)%IH. by exists (t :: l), s, rest'.
    + destruct l1' as [|y l1']; simpl.
      * intros [= <- <-]. by exists [], t, rest.
      * intros [= _ (l & s & rest' & -> & ? & ?)%IH].
        by exists (t :: l), s, rest'.
Qed.

Lemma glue_symbols (r : string) (rest : list string) :
  Forall symbol rest ->
  no_space (glue a b r rest).1 = true /\ Forall symbol (glue a b r rest).2.
Proof.
  revert r. induction rest as [|t rest IH]; intros r Hall; [done |].
  apply Forall_cons in Hall as [[Hne Hns] Hall].
  rewrite glue_cons.
  destruct (ends_with a r && String.prefix b t); cbn [fst snd].
  - destruct (IH (sdrop (String.length b) t) Hall) as [H1 H2].
    split; [| done]. by rewrite no_space_app, Hns, H1.
  - destruct (IH t Hall) as [H1 H2]. split; [done |].
    constructor; [| done]. split; [by destruct t |].
    by rewrite no_space_app, Hns, H1.
Qed.

End Glue.

Lemma merge_key_symbols_elem_of (p : string * string) (toks : list string)
    (u : string) :
  u ∈ merge_key_symbols p toks ->
  exists l t rest,
    toks = l ++ t :: rest /\ u = t +:+ (glue p.1 p.2 t rest).1.
Proof.
  destruct toks as [|t rest]; [by intros ?%elem_of_nil |]. simpl.
  intros [-> | Hin]%elem_of_cons; [by exists [], t, rest |].
  apply glue_elem_of in Hin as (l & t0 & rest' & -> & ->).
  by exists (t :: l), t0, rest'.
Qed.

Lemma merge_key_symbols_suffix (p : string * string) (toks l1' : list string)
    (s' : string) (l2' : list string) :
  merge_key_symbols p toks = l1' ++ s' :: l2' ->
  exists l s rest,
    toks = l ++ s :: rest /\ s' = s +:+ (glue p.1 p.2 s rest).1 /\
    l2' = (glue p.1 p.2 s rest).2.
Proof.
  destruct toks as [|t rest]; [by destruct l1' |]. simpl.
  destruct l1' as [|y l1']; simpl.
  - intros [= <- <-]. by exists [], t, rest.
  - intros [= _ (l & s & rest' & -> & ? & ?)%glue_suffix].
    by exists (t :: l), s, rest'.
Qed.

Lemma merge_key_symbols_symbols (p : string * string) (toks : list string) :
  Forall symbol toks -> Forall symbol (merge_key_symbols p toks).
Proof.
  destruct toks as [|t rest]; [done |].
  intros [[Hne Hns] Hall]%Forall_cons. simpl.
  destruct (glue_symbols p.1 p.2 t rest Hall) as [H1 H2].
  constructor; [| done]. split; [by destruct t |].
  by rewrite no_space_app, Hns, H1.
Qed.

(** ** Symbols that start at the start of a symbol *)

Lemma tight_suffix (u : string) (l toks : list string) :
  tight u (l ++ toks) -> tight u toks.
Proof.
  intros H l1 t l2 -> Hp. apply (H (l ++ l1) t l2); [| done].
  by rewrite <- app_assoc.
Qed.

Lemma tight_head (u t : string) (rest : list string) :
  tight u (t :: rest) -> String.prefix u (t +:+ join "" rest) = true ->
  String.prefix u t = true.
Proof.
  intros H Hp. apply (H [] t rest); [done |]. by rewrite join_empty_cons.
Qed.

(** Gluing keeps a symbol at the start of a symbol. *)
Lemma tight_merge_key_symbols (p : string * string) (u : string)
    (toks : list string) :
  tight u toks -> tight u (merge_key_symbols p toks).
Proof.
  intros H l1' s' l2' (l & s & rest & -> & -> & ->)%merge_key_symbols_suffix.
  rewrite join_empty_cons, sapp_assoc, glue_concat. intros Hp.
  apply prefix_app_r. apply (H l s rest); [done |].
  by rewrite join_empty_cons.
Qed.

Lemma ends_with_spec (a r : string) :
  ends_with a r = true <-> exists r0, r = r0 +:+ a.
Proof.
  unfold ends_with. rewrite andb_true_iff, Nat.leb_le, String.eqb_eq. split.
  - intros [Hlen E].
    exists (stake (String.length r - String.length a) r).
    pose proof (stake_sdrop (String.length r - String.length a) r) as H.
    by rewrite E in H.
  - intros [r0 ->]. rewrite slength_app. split; [lia |].
    replace (String.length r0 + String.length a - String.length a)%nat
      with (String.length r0) by lia.
    apply sdrop_app.
Qed.

Lemma ends_with_refl (a : string) : ends_with a a = true.
Proof. apply ends_with_spec. by exists "". Qed.

(** Two keys whose symbols start no symbol of the other key across a
    delimiter are glued alike: what is glued in the one is glued in the
    other, or lies within one symbol of it. *)
Lemma glue_simulation (a b : string) (rest1 : list string) :
  forall (rest2 : list string) (t s r1 r2 : string),
    t <> "" -> Forall (fun x => x <> "") rest1 ->
    (forall u, u ∈ t :: rest1 -> tight u (s :: rest2)) ->
    (forall v, v ∈ s :: rest2 -> tight v (t :: rest1)) ->
    (s = t -> r1 = r2) ->
    String.prefix (t +:+ (glue a b r1 rest1).1) (s +:+ join "" rest2) = true ->
    String.prefix (t +:+ (glue a b r1 rest1).1)
                  (s +:+ (glue a b r2 rest2).1) = true.
Proof.
  induction rest1 as [|t' rest1 IH]; intros rest2 t s r1 r2 Ht Hne H12 H21 Hr Hp.
  all: assert (String.prefix t s = true) as Hts
    by (apply (tight_head t s rest2); [apply H12; left |];
        eapply prefix_trans; [| exact Hp]; apply prefix_app_r, prefix_refl).
  all: destruct (prefix_proper _ _ Hts) as [-> | (z & Hz & ->)].
  - simpl. rewrite sapp_nil_r. apply prefix_app_r, prefix_refl.
  - simpl in *. rewrite sapp_nil_r. apply prefix_app_r, prefix_app_r, prefix_refl.
  - rewrite <- (Hr eq_refl). clear Hr r2.
    apply prefix_cancel in Hp. apply prefix_cancel.
    rewrite glue_cons in *.
    destruct (ends_with a r1 && String.prefix b t') eqn:Hc;
      [| apply prefix_nil].
    cbn [fst] in *. apply andb_prop in Hc as [Hc1 Hc2].
    apply Forall_cons in Hne as [Ht' Hne].
    destruct rest2 as [|s' rest2].
    { simpl in Hp. destruct t'; done. }
    rewrite join_empty_cons in Hp.
    assert (tight t' (s' :: rest2)) as Htight.
    { apply (tight_suffix t' [t]). apply H12. right; left. }
    assert (String.prefix t' s' = true) as Hts'.
    { apply (tight_head t' s' rest2); [done |].
      eapply prefix_trans; [| exact Hp]. apply prefix_app_r, prefix_refl. }
    rewrite glue_cons, Hc1, (prefix_trans _ _ _ Hc2 Hts'). cbn [andb fst].
    apply IH; [done | done | | | by intros -> | done].
    + intros u Hu. apply (tight_suffix u [t]). apply H12. by right.
    + intros v Hv. apply (tight_suffix v [t]). apply H21. by right.
  - clear IH Hr. rewrite sapp_assoc in *.
    apply prefix_cancel in Hp. apply prefix_cancel.
    set (x1 := (glue a b r1 (t' :: rest1)).1) in *.
    destruct (le_lt_dec (String.length z) (String.length x1)) as [Hlen | Hlen].
    + exfalso.
      assert (String.prefix z x1 = true) as Hz1.
      { apply (prefix_comparable z x1 (z +:+ join "" rest2));
          [apply prefix_app_r, prefix_refl | done | done]. }
      assert (String.prefix (t +:+ z) t = true) as Habs.
      { apply (tight_head _ t (t' :: rest1)); [apply H21; left |].
        apply prefix_cancel. eapply prefix_trans; [exact Hz1 |].
        apply glue_prefix. }
      by rewrite prefix_app_nonempty in Habs.
    + apply prefix_app_r.
      apply (prefix_comparable x1 z (z +:+ join "" rest2));
        [done | apply prefix_app_r, prefix_refl | lia].
Qed.

(** After a merge, the symbols of a key still start no symbol of another
    key across a delimiter. *)
Lemma tight_merged_symbols (p : string * string) (K1 K2 : list string) :
  Forall (fun x => x <> "") K1 ->
  (forall u, u ∈ K1 -> tight u K2) ->
  (forall v, v ∈ K2 -> tight v K1) ->
  forall u', u' ∈ merge_key_symbols p K1 ->
             tight u' (merge_key_symbols p K2).
Proof.
  intros Hne H12 H21 u' (l1 & t & rest1 & -> & ->)%merge_key_symbols_elem_of.
  intros l1' s' l2' (l2 & s & rest2 & -> & -> & ->)%merge_key_symbols_suffix.
  rewrite join_empty_cons, sapp_assoc, glue_concat. intros Hp.
  apply Forall_app in Hne as [_ [Ht Hne]%Forall_cons].
  apply glue_simulation; [done | done | | | done | done].
  - intros u Hu. apply (tight_suffix u l2). apply H12.
    apply elem_of_app. by right.
  - intros v Hv. apply (tight_suffix v l1). apply H21.
    apply elem_of_app. by right.
Qed.

(** After the merge of a pair whose symbols are adjacent in one key, the
    merged symbol starts no symbol of a key across a delimiter. *)
Lemma tight_merged_pair (p : string * string) (K1 K2 l l' : list string) :
  K1 = l ++ p.1 :: p.2 :: l' -> p.2 <> "" ->
  (forall u, u ∈ K1 -> tight u K2) ->
  (forall v, v ∈ K2 -> tight v K1) ->
  tight (merged p) (merge_key_symbols p K2).
Proof.
  destruct p as [a b]. unfold merged. simpl. intros -> Hb H12 H21.
  intros l1' s' l2' (l2 & s & rest2 & -> & -> & ->)%merge_key_symbols_suffix.
  rewrite join_empty_cons, sapp_assoc, glue_concat. intros Hp. simpl.
  assert (String.prefix a s = true) as Has.
  { apply (tight_head a s rest2).
    - apply (tight_suffix a l2). apply H12. apply elem_of_app. right. left.
    - eapply prefix_trans; [| exact Hp]. apply prefix_app_r, prefix_refl. }
  destruct (prefix_proper _ _ Has) as [-> | (z & Hz & ->)].
  - apply prefix_cancel in Hp. apply prefix_cancel.
    destruct rest2 as [|s2 rest2]; [by destruct b |].
    rewrite join_empty_cons in Hp.
    assert (String.prefix b s2 = true) as Hbs.
    { apply (tight_head b s2 rest2); [| done].
      apply (tight_suffix b (l2 ++ [a])). rewrite <- app_assoc. apply H12.
      apply elem_of_app. right. right. left. }
    rewrite glue_cons, ends_with_refl, Hbs. cbn [andb fst].
    by apply prefix_app_r.
  - rewrite sapp_assoc in *. apply prefix_cancel in Hp. apply prefix_cancel.
    destruct (le_lt_dec (String.length b) (String.length z)) as [Hlen | Hlen].
    + apply prefix_app_r.
      apply (prefix_comparable b z (z +:+ join "" rest2));
        [done | apply prefix_app_r, prefix_refl | done].
    + exfalso.
      assert (String.prefix z b = true) as Hzb.
      { apply (prefix_comparable z b (z +:+ join "" rest2));
          [apply prefix_app_r, prefix_refl | done | lia]. }
      assert (String.prefix (a +:+ z) a = true) as Habs.
      { apply (tight_head _ a (b :: l')).
        - apply (tight_suffix _ l). apply H21. apply elem_of_app. right. left.
        - apply prefix_cancel. rewrite join_empty_cons.
          by apply prefix_app_r. }
      by rewrite prefix_app_nonempty in Habs.
Qed.

(** A pair whose symbols are adjacent in a key is not the split of a
    symbol that starts no symbol of that key across a delimiter. *)
Lemma tight_not_adjacent (p : string * string) (K l l' : list string) :
  K = l ++ p.1 :: p.2 :: l' -> p.2 <> "" -> ~ tight (merged p) K.
Proof.
  destruct p as [a b]. unfold merged. simpl. intros -> Hb Ht.
  assert (String.prefix (a +:+ b) a = true) as Habs.
  { apply (Ht l a (b :: l')); [done |].
    rewrite !join_empty_cons, <- sapp_assoc. apply prefix_app_r, prefix_refl. }
  by rewrite prefix_app_nonempty in Habs.
Qed.

(** ** Keys as sequences of symbols *)

Lemma split_go_app (cur t s : string) :
  no_space t = true -> split_go cur (t +:+ s) = split_go (cur +:+ t) s.
Proof.
  revert cur. induction t as [|c t IH]; intros cur Ht.
  - by rewrite sapp_nil_r.
  - simpl in Ht. apply andb_prop in Ht as [Hc Ht]. apply negb_true_iff in Hc.
    change (String c t +:+ s) with (String c (t +:+ s)).
    cbn [split_go]. rewrite Hc, IH by done. by rewrite sapp_assoc.
Qed.

Lemma split_go_blank (cur s : string) :
  cur <> "" -> split_go cur (String " " s) = cur :: split_go "" s.
Proof. intros Hne. cbn [split_go]. simpl. by rewrite decide_False. Qed.

Lemma split_go_end (cur : string) : cur <> "" -> split_go cur "" = [cur].
Proof. intros Hne. simpl. by rewrite decide_False. Qed.

Lemma join_cons (sep x : string) (l : list string) :
  join sep (x :: l) =
  x +:+ match l with [] => "" | _ :: _ => sep +:+ join sep l end.
Proof. destruct l; [by rewrite sapp_nil_r | done]. Qed.

Lemma join_app_head (sep x y : string) (l : list string) :
  join sep ((x +:+ y) :: l) = x +:+ join sep (y :: l).
Proof. rewrite !join_cons. by rewrite sapp_assoc. Qed.

Lemma split_join (toks : list string) :
  Forall symbol toks -> split (join " " toks) = toks.
Proof.
  unfold split. induction 1 as [|t toks [Hne Hns] Hall IH]; [done |].
  rewrite join_cons, split_go_app by done. simpl.
  destruct toks as [|t' toks].
  - by apply split_go_end.
  - change (" " +:+ ?x) with (String " " x).
    rewrite split_go_blank by done. by rewrite IH.
Qed.

Lemma split_symbols (key : string) : Forall symbol (split key).
Proof.
  apply Forall_forall. intros t Ht. split; [by eapply split_nonempty |].
  pose proof (split_go_no_space key "" eq_refl) as Hall.
  rewrite Forall_forall in Hall. by apply Hall.
Qed.

(** The first blank of a text. *)
Lemma first_blank (a x u v : string) :
  no_space a = true -> no_space x = true ->
  a +:+ String " " u = x +:+ String " " v -> a = x /\ u = v.
Proof.
  revert x. induction a as [|c a IH]; intros [|c' x] Ha Hx E; simpl in *.
  - by injection E.
  - injection E as <- _. done.
  - injection E as -> _. done.
  - injection E as -> E.
    apply andb_prop in Ha as [_ Ha]. apply andb_prop in Hx as [_ Hx].
    destruct (IH x Ha Hx E) as [-> ->]. done.
Qed.

Lemma no_space_prefix_join (b q t : string) (rest : list string) :
  no_space b = true -> b +:+ q = join " " (t :: rest) ->
  String.prefix b t = true.
Proof.
  rewrite join_cons. intros Hb E.
  destruct rest as [|t' rest].
  { rewrite sapp_nil_r in E. apply prefix_app. by exists q. }
  change (" " +:+ ?x) with (String " " x) in E.
  revert E. generalize (join " " (t' :: rest)). intros z.
  revert t. induction b as [|c b IH]; intros t E; [apply prefix_nil |].
  simpl in Hb. apply andb_prop in Hb as [Hc Hb].
  destruct t as [|c' t]; simpl in E.
  - injection E as -> _. done.
  - injection E as -> E. simpl. destruct (ascii_dec c' c'); [| done].
    by apply IH.
Qed.

Lemma replace_go_prefix_free (old new x y : string) :
  (forall x1 x2, x = x1 +:+ x2 -> x2 <> "" ->
                 String.prefix old (x2 +:+ y) = false) ->
  replace_go old new 0 (x +:+ y) = x +:+ replace_go old new 0 y.
Proof.
  induction x as [|c x IH]; intros Hfree; [done |].
  change (String c x +:+ y) with (String c (x +:+ y)).
  rewrite replace_go_nomatch by (by apply (Hfree "" (String c x))).
  simpl. f_equal. apply IH. intros x1 x2 -> Hx2.
  by apply (Hfree (String c x1) x2).
Qed.

Lemma no_space_absent (old s : string) :
  no_space old = false -> no_space s = true -> ~ occurs old s.
Proof.
  intros Hold Hs (pre & post & ->).
  rewrite !no_space_app, Hold in Hs. by destruct (no_space pre).
Qed.

(** [str.replace] with the joined pair on a key is the gluing of its
    symbols. *)
Lemma glue_spec (a b : string) (rest : list string) :
  symbol a -> symbol b ->
  forall acc r,
    no_space r = true -> Forall symbol rest ->
    join " " ((acc +:+ r +:+ (glue a b r rest).1) :: (glue a b r rest).2)
    = acc +:+ replace_go (joined (a, b)) (merged (a, b)) 0
                (join " " (r :: rest)).
Proof.
  intros [Ha Hsa] [Hb Hsb].
  assert (joined (a, b) <> "") as Hne by apply joined_nonempty.
  assert (no_space (joined (a, b)) = false) as Hold.
  { unfold joined. simpl. rewrite !no_space_app, Hsa. done. }
  induction rest as [|t rest IH]; intros acc r Hr Hall.
  { simpl. rewrite sapp_nil_r. f_equal. symmetry.
    apply replace_go_absent; [done | by apply no_space_absent]. }
  apply Forall_cons in Hall as [[Ht Hst] Hall].
  rewrite glue_cons.
  destruct (ends_with a r && String.prefix b t) eqn:Hc; cbn [fst snd].
  - apply andb_prop in Hc as [[r0 ->]%ends_with_spec [r' ->]%prefix_app].
    rewrite sdrop_app.
    rewrite no_space_app in Hr, Hst.
    apply andb_prop in Hr as [Hr0 _]. apply andb_prop in Hst as [_ Hr'].
    replace (acc +:+ (r0 +:+ a) +:+ (b +:+ r') +:+ (glue a b r' rest).1)
      with ((acc +:+ r0 +:+ a +:+ b) +:+ r' +:+ (glue a b r' rest).1)
      by (by rewrite !sapp_assoc).
    rewrite IH by done.
    rewrite (join_cons_cons " " (r0 +:+ a)) by done. rewrite join_app_head.
    replace ((r0 +:+ a) +:+ " " +:+ b +:+ join " " (r' :: rest))
      with (r0 +:+ joined (a, b) +:+ join " " (r' :: rest))
      by (unfold joined; simpl; by rewrite !sapp_assoc).
    rewrite replace_go_prefix_free.
    { rewrite replace_go_match by done. unfold merged. simpl.
      by rewrite !sapp_assoc. }
    intros x1 x2 -> Hx2.
    destruct (String.prefix (joined (a, b)) _) eqn:Hp; [| done]. exfalso.
    apply prefix_app in Hp as [q Hq]. unfold joined in Hq.
      cbn [fst snd] in Hq.
    rewrite !sapp_assoc in Hq.
    rewrite <- (sapp_assoc x2 a) in Hq.
    change (" " +:+ ?x) with (String " " x) in Hq. symmetry in Hq.
    apply first_blank in Hq as [Hq _]; [| done |].
    + symmetry in Hq. apply (f_equal String.length) in Hq.
      rewrite slength_app in Hq. destruct x2; [done | simpl in Hq; lia].
    + rewrite no_space_app in Hr0. apply andb_prop in Hr0 as [_ Hx2'].
      by rewrite no_space_app, Hx2', Hsa.
  - rewrite sapp_nil_r.
    rewrite (join_cons_cons " " (acc +:+ r)) by done.
    assert (join " " ((t +:+ (glue a b t rest).1) :: (glue a b t rest).2)
            = replace_go (joined (a, b)) (merged (a, b)) 0
                (join " " (t :: rest))) as ->
      by apply (IH "" t Hst Hall).
    rewrite (join_cons_cons " " r) by done.
    rewrite replace_go_prefix_free.
    + change (" " +:+ ?x) with (String " " x).
      rewrite replace_go_nomatch; [by rewrite sapp_assoc |].
      unfold joined. simpl. destruct a as [|c a]; [done |]. simpl.
      destruct (ascii_dec c " ") as [-> |]; [| done]. done.
    + intros x1 x2 -> Hx2.
      destruct (String.prefix (joined (a, b)) _) eqn:Hp; [| done]. exfalso.
      apply prefix_app in Hp as [q Hq]. unfold joined in Hq.
      cbn [fst snd] in Hq.
      rewrite !sapp_assoc in Hq.
      change (" " +:+ ?x) with (String " " x) in Hq. symmetry in Hq.
      rewrite no_space_app in Hr. apply andb_prop in Hr as [_ Hx2'].
      apply first_blank in Hq as [-> Hq]; [| done | done].
      apply no_space_prefix_join in Hq; [| done].
      rewrite Hq, andb_true_r in Hc.
      assert (ends_with x2 (x1 +:+ x2) = true) as He
        by (apply ends_with_spec; by exists x1).
      by rewrite He in Hc.
Qed.

Lemma merge_key_join (p : string * string) (toks : list string) :
  symbol p.1 -> symbol p.2 -> Forall symbol toks ->
  merge_key p (join " " toks) = join " " (merge_key_symbols p toks).
Proof.
  intros Ha Hb Hall. rewrite merge_key_replace_go.
  destruct toks as [|t rest]; [done |].
  apply Forall_cons in Hall as [[_ Ht] Hall]. destruct p as [a b].
  pose proof (glue_spec a b rest Ha Hb "" t Ht Hall) as H.
  simpl in *. by rewrite H.
Qed.

(** The symbols of the key that [merge_symbols] makes of a key. *)
Lemma split_merge_key (p : string * string) (key : string) :
  symbol p.1 -> symbol p.2 -> canonical key ->
  split (merge_key p key) = merge_key_symbols p (split key).
Proof.
  intros Ha Hb Hkey.
  rewrite <- (canonical_join_split key Hkey) at 1.
  rewrite merge_key_join by (done || apply split_symbols).
  apply split_join, merge_key_symbols_symbols, split_symbols.
Qed.

(** ** The appended symbols are pairwise distinct *)

Lemma adjacent_split_at (l : list string) (a b : string) :
  (a, b) ∈ adjacent l -> exists l1 l2, l = l1 ++ a :: b :: l2.
Proof.
  induction l as [|x [|y l] IH]; [by intros ?%elem_of_nil ..|].
  change (adjacent (x :: y :: l)) with ((x, y) :: adjacent (y :: l)).
  intros [[= -> ->] | Hin]%elem_of_cons.
  - by exists [], l.
  - destruct (IH Hin) as (l1 & l2 & ->). by exists (x :: l1), l2.
Qed.

Lemma merge_symbols_keys (p : string * string) (t : dict string)
    (syms : list string) (k' : string) :
  k' ∈ keys (merge_symbols p t syms).1 ->
  exists k, k ∈ keys t /\ k' = merge_key p k.
Proof.
  unfold merge_symbols. simpl. rewrite merge_loop_rekey.
  intros [[]%elem_of_nil | Hk]%rekey_keys.
  apply list_elem_of_fmap in Hk as (k & -> & Hk). by exists k.
Qed.

Lemma merge_symbols_aligned (p : string * string) (t : dict string)
    (syms V : list string) :
  aligned V (keys t) -> get_max_freq_pair t = Some p ->
  (merged p ∉ V) /\
  aligned (V ++ [merged p]) (keys (merge_symbols p t syms).1).
Proof.
  intros (Hcan & Hkeys & Hsyms) Hp.
  destruct (selected_pair_symbols _ _ Hp)
    as ((key & Hkey & Hadj) & Ha & Hb & Hsa & Hsb).
  rewrite (surjective_pairing p) in Hadj.
  apply adjacent_split_at in Hadj as (l1 & l2 & Hsplit).
  rewrite Forall_forall in Hcan.
  split.
  { intros HV. apply (tight_not_adjacent p (split key) l1 l2); auto. }
  split; [| split].
  - apply Forall_forall. intros k' (k & Hk & ->)%merge_symbols_keys.
    eapply canonical_blank_deleted; [by apply Hcan |].
    apply blank_deleted_merge_key.
  - intros k1' k2' u (k1 & Hk1 & ->)%merge_symbols_keys
      (k2 & Hk2 & ->)%merge_symbols_keys.
    rewrite !split_merge_key by (done || by apply Hcan).
    apply tight_merged_symbols.
    + eapply Forall_impl; [apply split_symbols | by intros x [? _]].
    + intros u0. by apply Hkeys.
    + intros v. by apply Hkeys.
  - intros s k' Hs (k & Hk & ->)%merge_symbols_keys.
    rewrite split_merge_key by (done || by apply Hcan).
    apply elem_of_app in Hs as [Hs | ->%list_elem_of_singleton].
    + apply tight_merge_key_symbols. by apply Hsyms.
    + apply (tight_merged_pair p (split key) (split k) l1 l2); [done | done | |].
      * intros u. by apply Hkeys.
      * intros v. by apply Hkeys.
Qed.

Lemma train_loop_aligned (n : nat) :
  forall st st',
    aligned (merged <$> tr_merges st) (keys (tr_token_freqs st)) ->
    NoDup (merged <$> tr_merges st) ->
    train_loop n st = Some st' ->
    aligned (merged <$> tr_merges st') (keys (tr_token_freqs st')) /\
    NoDup (merged <$> tr_merges st').
Proof.
  induction n as [|n IH]; intros st st' Hal Hnd Hrun.
  - by injection Hrun as <-.
  - rewrite train_loop_S in Hrun.
    destruct (get_max_freq_pair (tr_token_freqs st)) as [p|] eqn:Hp; [| done].
    destruct (merge_symbols_aligned p _ (tr_symbols st) _ Hal Hp)
      as [Hnew Hal'].
    apply IH in Hrun; [done | |]; unfold merge_step; cbn [tr_merges
      tr_token_freqs]; rewrite fmap_app.
    + done.
    + apply NoDup_app. split; [done |]. split.
      * intros x Hx ->%list_elem_of_singleton. done.
      * apply NoDup_singleton.
Qed.

Lemma chars_elem_of (w u : string) :
  u ∈ chars w -> exists c, u = String c "".
Proof.
  induction w as [|c w IH]; [by intros ?%elem_of_nil |]. simpl.
  intros [-> | Hin]%elem_of_cons; [by exists c | by apply IH].
Qed.

Lemma init_token_freqs_aligned (raw : dict string) :
  Forall (fun w => no_space w = true) (keys raw) ->
  aligned [] (keys (init_token_freqs raw)).
Proof.
  rewrite Forall_forall. intros Hraw. split; [| split].
  - apply Forall_forall. intros k (w & Hw & ->)%init_token_freqs_keys.
    apply canonical_join_chars. by apply Hraw.
  - intros k1 k2 u (w1 & Hw1 & ->)%init_token_freqs_keys
      (w2 & Hw2 & ->)%init_token_freqs_keys.
    rewrite !split_join_chars by by apply Hraw.
    intros [c ->]%chars_elem_of l1 t l2 Hsplit.
    assert (t ∈ chars w2) as [c' ->]%chars_elem_of.
    { rewrite Hsplit. apply elem_of_app. right. left. }
    rewrite join_empty_cons. simpl.
    by destruct (ascii_dec c c'), (join "" l2).
  - by intros s k ?%elem_of_nil.
Qed.

Lemma train_distinct_merges (raw : dict string) (n : nat) (st : training) :
  Forall (fun w => no_space w = true) (keys raw) ->
  train n raw = Some st ->
  NoDup (merged <$> tr_merges st).
Proof.
  intros Hraw Hrun. unfold train in Hrun.
  apply train_loop_aligned in Hrun as [_ ?]; [done | | constructor].
  by apply init_token_freqs_aligned.
Qed.

Lemma over_alphabet_no_space (w : string) :
  over_alphabet w -> no_space w = true.
Proof.
  assert (Forall (fun x => no_space x = true) alphabet) as Hal
    by (repeat constructor).
  rewrite Forall_forall in Hal. unfold over_alphabet.
  induction w as [|c w IH]; [done |]. simpl.
  intros [Hc Hw]%Forall_cons. apply Hal in Hc. simpl in Hc.
  rewrite andb_true_r in Hc. by rewrite Hc, IH.
Qed.

Lemma symbols0_long (sym : string) :
  sym ∈ symbols0 -> (2 <= String.length sym)%nat -> sym = "[UNK]".
Proof.
  intros Hin Hlen.
  assert (Forall (fun s => String.length s = 1%nat \/ s = "[UNK]") symbols0)
    as Hinit by (repeat constructor; by left).
  rewrite Forall_forall in Hinit. destruct (Hinit _ Hin) as [? | ->]; [lia |].
  done.
Qed.

Lemma NoDup_symbols0 : NoDup symbols0.
Proof. compute_done. Qed.

Lemma NoDup_vocabulary (appended : list string) :
  Forall (fun sym => (2 <= String.length sym)%nat) appended ->
  NoDup appended ->
  NoDup (symbols0 ++ appended) <-> "[UNK]" ∉ appended.
Proof.
  intros Hlen Hnd. rewrite Forall_forall in Hlen. split.
  - intros [_ [Hdis _]]%NoDup_app. apply Hdis. compute_done.
  - intros Hunk. apply NoDup_app.
    split; [apply NoDup_symbols0 |]. split; [| done].
    intros sym Hin Happ.
    apply symbols0_long in Hin as ->; [done | by apply Hlen].
Qed.

(** C4 (amended): after a training run of [n] merge iterations the
    vocabulary is the initial vocabulary followed by the concatenations
    of the [n] selected pairs, in the order of their selection: it has
    the initial size plus [n] entries and nothing is removed or changed;
    every appended symbol has two characters at least; one more
    iteration appends the concatenation of the pair it selects. When the
    words of the corpus hold no white space, the appended symbols are
    pairwise distinct, and the vocabulary has no duplicates exactly when
    no appended symbol is the text of the unknown marker. When the words
    of the corpus are over the alphabet, every appended symbol differs
    from every initial symbol and the vocabulary has no duplicates. *)
Theorem vocabulary_growth (raw : dict string) (n : nat) (st : training) :
  train n raw = Some st ->
  length (tr_merges st) = n /\
  tr_symbols st = symbols0 ++ (merged <$> tr_merges st) /\
  length (tr_symbols st) = (length symbols0 + n)%nat /\
  Forall (fun sym => (2 <= String.length sym)%nat) (merged <$> tr_merges st) /\
  (Forall (fun w => no_space w = true) (keys raw) ->
   NoDup (merged <$> tr_merges st) /\
   (NoDup (tr_symbols st) <-> "[UNK]" ∉ merged <$> tr_merges st)) /\
  (Forall over_alphabet (keys raw) ->
   Forall (fun sym => sym ∉ symbols0) (merged <$> tr_merges st) /\
   NoDup (merged <$> tr_merges st) /\
   NoDup (tr_symbols st)) /\
  forall st', train (S n) raw = Some st' ->
    exists p, get_max_freq_pair (tr_token_freqs st) = Some p /\
              tr_merges st' = tr_merges st ++ [p] /\
              tr_symbols st' = tr_symbols st ++ [merged p].
Proof.
  intros Hrun.
  pose proof (fun H => train_distinct_merges raw n st H Hrun) as Hdistinct.
  unfold train in *.
  destruct (train_loop_symbols _ _ _ Hrun) as (ps & Hlen & Hm & Hs & Hall).
  simpl in Hm. cbn [tr_symbols] in Hs. subst ps.
  split; [done |]. split; [done |].
  split; [by rewrite Hs, length_app, length_fmap, Hlen |].
  split; [done |]. split; [| split].
  - intros Hraw. split; [by apply Hdistinct |].
    rewrite Hs. apply NoDup_vocabulary; [done | by apply Hdistinct].
  - intros Hraw.
    assert (Forall (fun sym => sym ∉ symbols0) (merged <$> tr_merges st))
      as Hnew.
    { apply train_loop_over_alphabet in Hrun;
        [| by apply init_token_freqs_over_alphabet | constructor].
      rewrite Forall_forall in Hrun, Hall. apply Forall_forall.
      intros sym Hsym. apply over_alphabet_not_initial; auto. }
    assert (NoDup (merged <$> tr_merges st)) as Hnd.
    { apply Hdistinct. eapply Forall_impl; [exact Hraw |].
      apply over_alphabet_no_space. }
    split; [done |]. split; [done |].
    rewrite Hs. apply NoDup_vocabulary; [done | done |].
    rewrite Forall_forall in Hnew. intros Hunk.
    apply (Hnew _ Hunk). compute_done.
  - intros st'. rewrite train_loop_snoc, Hrun.
    destruct (get_max_freq_pair (tr_token_freqs st)) as [p|]; [| done].
    intros [= <-]. by exists p.
Qed.

Lemma vocabulary_growth_witness :
  exists st,
    train 10 raw_token_freqs = Some st /\
    length (tr_symbols st) = 38%nat /\
    tr_symbols st = symbols0 ++ (merged <$> tr_merges st) /\
    Forall (fun sym => sym ∉ symbols0) (merged <$> tr_merges st) /\
    NoDup (merged <$> tr_merges st) /\
    NoDup (tr_symbols st).
Proof.
  destruct (train 10 raw_token_freqs) as [st|] eqn:E; [| by vm_compute in E].
  exists st. split; [done |].
  destruct (vocabulary_growth raw_token_freqs 10 st E)
    as (_ & Hs & Hl & _ & _ & Hin & _).
  split; [done |]. split; [done |].
  apply Hin. repeat constructor; compute_done.
Defined.
